(** * build_db.py: the chunk merge, validation and reconciliation pipeline

    A shallow embedding of [src/build_db.py].  The script is one straight
    line of phases over a pandas table; every phase either hands the table
    on, leaves through [error] (a message on stderr and [exit(1)]), or dies
    with a Python exception.  The three outcomes are kept apart in [result].

    Modelling conventions.
    - Text is a byte string ([string]); [\d] is an ASCII digit.
    - A parsed cell is [option string]: [None] is pandas' NaN, the value a
      frame holds where a file had nothing to offer for a column.
    - A row (a pandas Series indexed by column name) is a [gmap] from column
      name to text; a column without entry reads as NaN.
    - Dictionaries ([bad_records], [bad_complexes]) are [gmap]s.
    - The files the script writes are a [gmap] from path to table text. *)

From Stdlib Require Import Ascii.
From stdpp Require Import gmap strings list fin_maps sorting.

(** ** Outcomes *)

Abbreviation cell := (option string).
Abbreviation Row := (gmap string string).

(** One entry of [unfixed_cdr3]: the Series
    [row[['fixed.cdr3', 'closest.v.id', 'closest.j.id', 'v.canonical',
    'j.canonical', 'v.fix.type', 'j.fix.type']]], whose name is the record
    id. *)
Record Unfixed := {
  u_name : string;
  u_fixed_cdr3 : cell;
  u_closest_v_id : cell;
  u_closest_j_id : cell;
  u_v_canonical : bool;
  u_j_canonical : bool;
  u_v_fix_type : cell;
  u_j_fix_type : cell
}.

(** What [error] was called with.  The constructors carry the objects the
    message is built from. *)
Inductive diagnostic :=
| MissingColumns (file : string) (missing_cols : list string)
    (* "The following required columns are missing in", file, ":", missing_cols *)
| BadIndexColumn (file : string)
    (* "Index column named", index_column, "should go first in", file *)
| DuplicateContent (duplicates : list (list cell))
    (* "The following duplicates are present in database:\n", duplicates *)
| InvalidRecord (reported : gmap string (list string))
    (* "Database contains bad records:\n" + str(bad_records) *)
| InvalidComplex (reported : gmap string (list string))
    (* "Database contains bad complex records:\n" + str(bad_records) *)
| UnresolvedSequences (unfixed_cdr3 : list Unfixed).
    (* "There were ambiguous CDR3 sequences that weren't fixed\n" + str(unfixed_cdr3) *)

(** The Python exceptions the script can die with. *)
Inductive exn :=
| ValueError (overlap : list string)   (* Indexes have overlapping values *)
| TypeError                            (* re.match on a NaN *)
| IndexError                           (* rows[1] on a one-element list *)
| KeyError (column : string)           (* df[...] on an absent column *)
| CalledProcessError.                  (* check_call: the fixer failed *)

Inductive result (A : Type) :=
| Ok (a : A)
| Exit (d : diagnostic)
| Raise (e : exn).
Arguments Ok {A} a.
Arguments Exit {A} d.
Arguments Raise {A} e.

(** Sequencing: the first phase that does not hand a value on ends the run.
    With these instances [x ← m; k] is stdpp's notation for it. *)
Definition bind {A B} (k : A → result B) (m : result A) : result B :=
  match m with
  | Ok a => k a
  | Exit d => Exit d
  | Raise e => Raise e
  end.

Global Instance result_ret : MRet result := @Ok.
Global Instance result_bind : MBind result := @bind.

Definition succeeded {A} (m : result A) : bool :=
  match m with Ok _ => true | _ => false end.

(** ** Regular expressions

    The fragment of Python's [re] the script uses.  [re.match] anchors at
    the start of the text only; [$] holds at the end of the text and also
    just before a newline that ends it. *)
Module Re.

Inductive atom :=
| Chr (c : ascii)
| Digit                 (* \d *)
| OneOf (cs : string).  (* [...] *)

Inductive item :=
| Bol                   (* ^ *)
| Eol                   (* $ *)
| One (a : atom)
| Plus (a : atom).      (* a+ *)

Definition regex := list item.

Definition is_digit (c : ascii) : bool :=
  (48 <=? nat_of_ascii c) && (nat_of_ascii c <=? 57).

Fixpoint in_class (c : ascii) (cs : string) : bool :=
  match cs with
  | EmptyString => false
  | String d cs' => Ascii.eqb c d || in_class c cs'
  end.

Definition atom_matches (a : atom) (c : ascii) : bool :=
  match a with
  | Chr d => Ascii.eqb c d
  | Digit => is_digit c
  | OneOf cs => in_class c cs
  end.

Definition newline : ascii := ascii_of_nat 10.

Definition at_end (s : string) : bool :=
  match s with
  | EmptyString => true
  | String c EmptyString => Ascii.eqb c newline
  | _ => false
  end.

Fixpoint match_here (re : regex) (bol : bool) (s : string) : bool :=
  match re with
  | [] => true
  | Bol :: re' => bol && match_here re' bol s
  | Eol :: re' => at_end s && match_here re' bol s
  | One a :: re' =>
      match s with
      | String c s' => atom_matches a c && match_here re' false s'
      | EmptyString => false
      end
  | Plus a :: re' =>
      (fix plus (s : string) : bool :=
         match s with
         | String c s' =>
             atom_matches a c && (plus s' || match_here re' false s')
         | EmptyString => false
         end) s
  end.

(** [re.match(pattern, text)], as a truth value. *)
Definition re_match (re : regex) (s : string) : bool := match_here re true s.

Fixpoint lit (s : string) : regex :=
  match s with
  | EmptyString => []
  | String c s' => One (Chr c) :: lit s'
  end.

(** [a{n}] *)
Definition times (n : nat) (a : atom) : regex := replicate n (One a).

End Re.

(** ** Module-level constants *)

Definition required_columns : list string :=
  ["complex.id";
   "cdr3"; "v.segm"; "j.segm"; "gene"; "species";
   "mhc.a"; "mhc.b"; "mhc.type";
   "antigen"; "antigen.gene"; "antigen.species";
   "method"; "reference"; "reference.id"].

Arguments required_columns : simpl never.

Definition index_column : string := "record.id".

(** r'^VDJDBR\d{8}$' *)
Definition record_id_pattern : Re.regex :=
  [Re.Bol] ++ Re.lit "VDJDBR" ++ Re.times 8 Re.Digit ++ [Re.Eol].

(** r'^VDJDBC\d{8}$' *)
Definition complex_id_pattern : Re.regex :=
  [Re.Bol] ++ Re.lit "VDJDBC" ++ Re.times 8 Re.Digit ++ [Re.Eol].

(** r'^[ARNDCEQGHILKMFPSTWYV]+$' *)
Definition aa_pattern : Re.regex :=
  [Re.Bol; Re.Plus (Re.OneOf "ARNDCEQGHILKMFPSTWYV"); Re.Eol].

Definition allowed_mhcs : list string := ["MHCI"; "MHCII"].
Definition allowed_genes : list string := ["TRA"; "TRB"].
Definition allowed_species : list string :=
  ["HomoSapiens"; "MusMusculus"; "RattusNorvegicus"; "MacacaMulatta"].

Definition complex_match_cols : list string :=
  ["species";
   "mhc.a"; "mhc.b"; "mhc.type";
   "antigen"; "antigen.gene"; "antigen.species";
   "method"; "reference"; "reference.id"].

Definition bin_path : string := "../bin/".
Definition out_path : string := "../database/".

(** ** Reading tables

    [pd.read_table] turns a field into NaN when its text is one of the NA
    markers in force: the default ones unless [keep_default_na=False], plus
    [na_values]. *)
Definition default_na_values : list string :=
  [""; "#N/A"; "#N/A N/A"; "#NA"; "-1.#IND"; "-1.#QNAN"; "-NaN"; "-nan";
   "1.#IND"; "1.#QNAN"; "N/A"; "NA"; "NULL"; "NaN"; "n/a"; "nan"; "null"].

Definition read_cell (na_values : list string) (keep_default_na : bool)
    (text : string) : cell :=
  if bool_decide (text ∈ (if keep_default_na then default_na_values else []) ++ na_values)
  then None else Some text.

(** [to_csv(..., na_rep='NA')] writes a NaN as [na_rep] and text as it is. *)
Definition write_cell (na_rep : string) (c : cell) : string :=
  match c with
  | Some text => text
  | None => na_rep
  end.

(** A chunk file: its name, the header of its first column (which
    [index_col=[0]] makes the index), the headers of the other columns, and
    its lines as the index field and the other fields, as text.  Fields stay
    text: the conversion of all-numeric columns to numbers, which pandas
    would undo on export, is left out. *)
Record Chunk := {
  chunk_file : string;
  chunk_index_name : string;
  chunk_columns : list string;
  chunk_lines : list (string * list string)
}.

(** A frame indexed by record id. *)
Record DataFrame := {
  df_index_name : string;
  df_columns : list string;
  df_rows : list (string * Row)
}.

(** A line read with [na_values=[], keep_default_na=False]: each field is
    paired with its header; a field that comes out as NaN leaves no entry. *)
Definition read_row (na_values : list string) (keep_default_na : bool)
    (columns : list string) (fields : list string) : Row :=
  list_to_map
    (omap (λ '(c, text), pair c <$> read_cell na_values keep_default_na text)
          (zip columns fields)).

Definition chunk_rows (chunk : Chunk) : list (string * Row) :=
  prod_map id (read_row [] false (chunk_columns chunk)) <$> chunk_lines chunk.

(** [row[column]] *)
Definition get (row : Row) (column : string) : cell := row !! column.

(** ** Python operations on cells *)

(** [re.match(pattern, x)]: a NaN is a float, and [re.match] raises
    TypeError on it. *)
Definition re_match (pattern : Re.regex) (x : cell) : result bool :=
  match x with
  | Some text => Ok (Re.re_match pattern text)
  | None => Raise TypeError
  end.

(** Truth value of a cell: text is true unless empty, NaN is true. *)
Definition truthy (x : cell) : bool :=
  match x with
  | Some text => negb (bool_decide (text = ""))
  | None => true
  end.

(** [x in allowed]: a NaN equals no text. *)
Definition cell_in (x : cell) (allowed : list string) : bool :=
  match x with
  | Some text => bool_decide (text ∈ allowed)
  | None => false
  end.

(** [x != y]: a NaN differs from everything, itself included. *)
Definition cell_ne (x y : cell) : bool :=
  match x, y with
  | Some a, Some b => negb (bool_decide (a = b))
  | _, _ => true
  end.

(** [str(l)] for a list of plain words: ['a', 'b']. *)
Definition py_str (l : list string) : string :=
  "[" +:+ String.concat ", " ((λ s, "'" +:+ s +:+ "'") <$> l) +:+ "]".

(** ** [Index.get_duplicates]

    The values that occur more than once, each listed once, sorted: a plain
    list, as in the pandas releases that still have [DataFrame.append] and
    let [if duplicates:] test it. *)
Section get_duplicates.
Context {K : Type} `{EqDecision K} (R : relation K) `{!RelDecision R}.

Definition occurrences (k : K) (values : list K) : nat :=
  length (filter (λ v, v = k) values).

Definition get_duplicates (values : list K) : list K :=
  merge_sort R
    (filter (λ k, 1 < occurrences k values) (remove_dups values)).
End get_duplicates.

(** The order of tuples of cells: position by position, NaN first. *)
Definition cell_leb (x y : cell) : bool :=
  match x, y with
  | None, _ => true
  | Some _, None => false
  | Some a, Some b => String.leb a b
  end.

Fixpoint tuple_leb (t u : list cell) : bool :=
  match t, u with
  | [], _ => true
  | _ :: _, [] => false
  | x :: t', y :: u' =>
      if bool_decide (x = y) then tuple_leb t' u' else cell_leb x y
  end.

Definition tuple_le (t u : list cell) : Prop := tuple_leb t u.

Global Instance tuple_le_dec : RelDecision tuple_le.
Proof. intros t u. unfold tuple_le. apply _. Defined.

(** ** Make one big table of data (lines 28-45) *)

(** [pd.DataFrame(columns=[index_column] + required_columns)] followed by
    [set_index(index_column)]. *)
Definition empty_df : DataFrame :=
  {| df_index_name := index_column;
     df_columns := required_columns;
     df_rows := [] |}.

(** [[x for x in required_columns if x not in chunk.columns.values]] *)
Definition missing_cols (chunk : Chunk) : list string :=
  filter (λ x, x ∉ chunk_columns chunk) required_columns.

(** [df.append(chunk, verify_integrity=True)]: the rows of the chunk follow
    those of [df], the columns are the union, and the record ids of the
    result must all differ. *)
Definition append (df : DataFrame) (chunk : Chunk) : result DataFrame :=
  let rows := df_rows df ++ chunk_rows chunk in
  match get_duplicates String.le rows.*1 with
  | [] =>
      Ok {| df_index_name := df_index_name df;
            df_columns :=
              df_columns df ++ filter (λ x, x ∉ df_columns df) (chunk_columns chunk);
            df_rows := rows |}
  | overlap => Raise (ValueError overlap)
  end.

(** The body of [for file in chunk_files]. *)
Definition ingest_chunk (df : DataFrame) (chunk : Chunk) : result DataFrame :=
  if bool_decide (missing_cols chunk ≠ []) then
    Exit (MissingColumns (chunk_file chunk) (missing_cols chunk))
  else if bool_decide (chunk_index_name chunk ≠ index_column) then
    Exit (BadIndexColumn (chunk_file chunk))
  else append df chunk.

Fixpoint ingest_from (df : DataFrame) (chunks : list Chunk) : result DataFrame :=
  match chunks with
  | [] => Ok df
  | chunk :: chunks' => df' ← ingest_chunk df chunk; ingest_from df' chunks'
  end.

Definition ingest (chunks : list Chunk) : result DataFrame :=
  ingest_from empty_df chunks.

(** ** Check for duplicates (lines 47-52) *)

(** The entry of a row in the index of [df.set_index(required_columns)]. *)
Definition content (row : Row) : list cell := get row <$> required_columns.
Arguments content : simpl never.

Definition check_duplicates (df : DataFrame) : result DataFrame :=
  match get_duplicates tuple_le (content <$> (df_rows df).*2) with
  | [] => Ok df
  | duplicates => Exit (DuplicateContent duplicates)
  end.

(** ** Check correctness of certain columns (lines 54-93) *)

(** The body of [for index, row in df.iterrows()], up to [if messages]. *)
Definition check_record (index : string) (row : Row) : result (list string) :=
  let m1 := if negb (Re.re_match record_id_pattern index)
            then ["Bad record identifier"] else [] in
  ok_complex ← re_match complex_id_pattern (get row "complex.id");
  let m2 := if negb ok_complex then ["Bad complex identifier"] else [] in
  ok_cdr3 ← re_match aa_pattern (get row "cdr3");
  let m3 := if negb ok_cdr3 then ["Bad CDR3 sequence"] else [] in
  bad_antigen ← (if truthy (get row "antigen")
                 then ok ← re_match aa_pattern (get row "antigen"); Ok (negb ok)
                 else Ok false);
  let m4 := if bad_antigen : bool then ["Bad antigen sequence"] else [] in
  let m5 := if negb (cell_in (get row "mhc.type") allowed_mhcs)
            then ["MHC type should be in " +:+ py_str allowed_mhcs] else [] in
  let m6 := if negb (cell_in (get row "gene") allowed_genes)
            then ["TCR gene type should be in " +:+ py_str allowed_genes] else [] in
  let m7 := if negb (cell_in (get row "species") allowed_species)
            then ["Species should be in " +:+ py_str allowed_species] else [] in
  Ok (m1 ++ m2 ++ m3 ++ m4 ++ m5 ++ m6 ++ m7).

Definition record_step (bad_records : gmap string (list string))
    (r : string * Row) : result (gmap string (list string)) :=
  messages ← check_record r.1 r.2;
  Ok (if bool_decide (messages ≠ []) then <[r.1 := messages]> bad_records
      else bad_records).

Fixpoint record_loop (bad_records : gmap string (list string))
    (rows : list (string * Row)) : result (gmap string (list string)) :=
  match rows with
  | [] => Ok bad_records
  | r :: rows' =>
      bad_records' ← record_step bad_records r; record_loop bad_records' rows'
  end.

(** The loop and the [if bad_records] after it; [bad_records] stays in
    scope for the rest of the script. *)
Definition check_records (df : DataFrame) : result (gmap string (list string)) :=
  bad_records ← record_loop ∅ (df_rows df);
  if bool_decide (bad_records ≠ ∅) then Exit (InvalidRecord bad_records)
  else Ok bad_records.

(** ** Check that all records except CDR3 are same (lines 95-122) *)

(** [df.groupby(column)]: one group per value of the column, in sorted
    order of the values; rows whose value is NaN belong to no group. *)
Definition groupby (column : string) (df : DataFrame)
    : list (string * list (string * Row)) :=
  (λ index, (index, filter (λ r, get r.2 column = Some index) (df_rows df)))
    <$> merge_sort String.le
          (remove_dups (omap (λ r, get r.2 column) (df_rows df))).

(** The body of [for index, group in df.groupby('complex.id')]. *)
Definition complex_step (bad_complexes : gmap string (list string))
    (g : string * list (string * Row)) : result (gmap string (list string)) :=
  let '(index, group) := g in
  if bool_decide (index ≠ "VDJDBC00000000") then
    let m1 := if bool_decide (length group ≠ 2)
              then ["Number of entries in complex should be 2"] else [] in
    let rows := group.*2 in
    match rows with
    | row0 :: row1 :: _ =>
        let unmatched_cols :=
          filter (λ col_name, cell_ne (get row0 col_name) (get row1 col_name))
                 complex_match_cols in
        let m2 := if bool_decide (unmatched_cols ≠ [])
                  then ["The following columns are not matching within complex entries"
                        +:+ py_str unmatched_cols]
                  else [] in
        let messages := m1 ++ m2 in
        Ok (if bool_decide (messages ≠ []) then <[index := messages]> bad_complexes
            else bad_complexes)
    | _ => Raise IndexError   (* rows[1] *)
    end
  else Ok bad_complexes.

Fixpoint complex_loop (bad_complexes : gmap string (list string))
    (groups : list (string * list (string * Row)))
    : result (gmap string (list string)) :=
  match groups with
  | [] => Ok bad_complexes
  | g :: groups' =>
      bad_complexes' ← complex_step bad_complexes g;
      complex_loop bad_complexes' groups'
  end.

(** The dictionary the loop builds. *)
Definition bad_complexes_of (df : DataFrame) : result (gmap string (list string)) :=
  complex_loop ∅ (groupby "complex.id" df).

(** The loop and the [if bad_complexes] after it.  The message is built
    from [bad_records], the dictionary of the record check. *)
Definition check_complexes (bad_records : gmap string (list string))
    (df : DataFrame) : result unit :=
  bad_complexes ← bad_complexes_of df;
  if bool_decide (bad_complexes ≠ ∅) then Exit (InvalidComplex bad_records)
  else Ok ().

(** The checks of lines 28-122 in sequence. *)
Definition validate (chunks : list Chunk) : result DataFrame :=
  df ← ingest chunks;
  df ← check_duplicates df;
  bad_records ← check_records df;
  _ ← check_complexes bad_records df;
  Ok df.

(** ** Fix (lines 124-149) *)

(** The text of a table file: the header line, then one line per row. *)
Abbreviation Table := (list (list string)).
Abbreviation Files := (gmap string Table).

(** [df[columns]]: KeyError when a column is not in the frame. *)
Definition select (df : DataFrame) (columns : list string) : result DataFrame :=
  match filter (λ c, c ∉ df_columns df) columns with
  | [] =>
      Ok {| df_index_name := df_index_name df;
            df_columns := columns;
            df_rows := prod_map id (filter (λ kv, kv.1 ∈ columns)) <$> df_rows df |}
  | c :: _ => Raise (KeyError c)
  end.

(** [df.to_csv(..., sep='\t', na_rep='NA')], as header and lines. *)
Definition to_csv (na_rep : string) (df : DataFrame) : Table :=
  (df_index_name df :: df_columns df)
  :: ((λ r, r.1 :: (write_cell na_rep ∘ get r.2 <$> df_columns df)) <$> df_rows df).

(** What the fixer adds to a row, as [pd.read_table] delivers it: the
    columns the loop reads from [row].  The flag columns hold true and false,
    which are read as booleans. *)
Record Fix := {
  fixed_cdr3 : cell;
  closest_v_id : cell;
  closest_j_id : cell;
  v_canonical : bool;
  j_canonical : bool;
  good : bool;
  v_fix_type : cell;
  j_fix_type : cell
}.

(** The table read back from [vdjdb_fixed.txt]: the frame of its other
    columns, and for each row what the fixer says about it. *)
Record FixedFrame := {
  fixed_index_name : string;
  fixed_columns : list string;
  fixed_rows : list (string * (Row * Fix))
}.

(** [df.loc[index, column] = value]: every row labelled [index] gets the
    value; a column the frame does not have yet is added. *)
Definition set_cell (column : string) (value : cell) (row : Row) : Row :=
  match value with
  | Some text => <[column := text]> row
  | None => delete column row
  end.

Definition loc_set (df : FixedFrame) (index column : string) (value : cell)
    : FixedFrame :=
  {| fixed_index_name := fixed_index_name df;
     fixed_columns :=
       if bool_decide (column ∈ fixed_columns df) then fixed_columns df
       else fixed_columns df ++ [column];
     fixed_rows :=
       (λ r, if bool_decide (r.1 = index)
             then (r.1, (set_cell column value r.2.1, r.2.2)) else r)
         <$> fixed_rows df |}.

Definition unfixed_entry (index : string) (f : Fix) : Unfixed :=
  {| u_name := index;
     u_fixed_cdr3 := fixed_cdr3 f;
     u_closest_v_id := closest_v_id f;
     u_closest_j_id := closest_j_id f;
     u_v_canonical := v_canonical f;
     u_j_canonical := j_canonical f;
     u_v_fix_type := v_fix_type f;
     u_j_fix_type := j_fix_type f |}.

(** The body of the second [for index, row in df.iterrows()]; the state is
    the frame being updated and [unfixed_cdr3]. *)
Definition fix_step (st : FixedFrame * list Unfixed)
    (r : string * (Row * Fix)) : FixedFrame * list Unfixed :=
  let '(df, unfixed_cdr3) := st in
  let '(index, (_, row)) := r in   (* of [row], the loop reads the fixer's columns *)
  if negb (good row || (v_canonical row && j_canonical row)) then
    (df, unfixed_cdr3 ++ [unfixed_entry index row])
  else
    let df := loc_set df index "cdr3" (fixed_cdr3 row) in
    let df := loc_set df index "v.segm" (closest_v_id row) in
    let df := loc_set df index "j.segm" (closest_j_id row) in
    (df, unfixed_cdr3).

(** [iterrows] walks the rows as they were when the loop began. *)
Definition fix_loop (df : FixedFrame) : FixedFrame * list Unfixed :=
  foldl fix_step (df, []) (fixed_rows df).

(** The frame of the columns other than the fixer's. *)
Definition frame_of (df : FixedFrame) : DataFrame :=
  {| df_index_name := fixed_index_name df;
     df_columns := fixed_columns df;
     df_rows := prod_map id fst <$> fixed_rows df |}.

Definition raw_file : string := out_path +:+ "vdjdb_raw.txt".
Definition final_file : string := out_path +:+ "vdjdb.txt".

(** Lines 133-149: from the table read back to the final export. *)
Definition apply_fixes (fixed : FixedFrame) (files : Files) : Files * result unit :=
  let '(df, unfixed_cdr3) := fix_loop fixed in
  match unfixed_cdr3 with
  | [] =>
      match select (frame_of df) required_columns with
      | Ok out => (<[final_file := to_csv "NA" out]> files, Ok ())
      | Exit d => (files, Exit d)
      | Raise e => (files, Raise e)
      end
  | _ => (files, Exit (UnresolvedSequences unfixed_cdr3))
  end.

Section pipeline.

(** The external fixer, [check_call('java -jar ...fixcdr3-1.0.0.jar ...')],
    together with the [pd.read_table] that loads what it wrote: from the
    text of the raw export to the table read back, or [None] when the
    process fails.  [Files] holds the files the script itself writes. *)
Variable fixer : Table → option FixedFrame.

(** Lines 124-149. *)
Definition reconcile (df : DataFrame) (files : Files) : Files * result unit :=
  match select df required_columns with
  | Ok raw =>
      let files := <[raw_file := to_csv "NA" raw]> files in
      match fixer (to_csv "NA" raw) with
      | Some fixed => apply_fixes fixed files
      | None => (files, Raise CalledProcessError)
      end
  | Exit d => (files, Exit d)
  | Raise e => (files, Raise e)
  end.

(** The whole script. *)
Definition build_db (chunks : list Chunk) (files : Files) : Files * result unit :=
  match validate chunks with
  | Ok df => reconcile df files
  | Exit d => (files, Exit d)
  | Raise e => (files, Raise e)
  end.

End pipeline.

(** ** Vocabulary of the statements *)

(** The record ids a chunk defines. *)
Definition chunk_ids (chunk : Chunk) : list string := (chunk_lines chunk).*1.

(** A chunk that gets past both schema checks. *)
Definition schema_ok (chunk : Chunk) : Prop :=
  missing_cols chunk = [] ∧ chunk_index_name chunk = index_column.


(** Two rows of the table, at different positions, agree on every required
    column. *)
Definition repeated_content (df : DataFrame) : Prop :=
  ∃ i j r r', i ≠ j ∧ df_rows df !! i = Some r ∧ df_rows df !! j = Some r'
              ∧ ∀ c, c ∈ required_columns → get r.2 c = get r'.2 c.

(** What the loop body computes for a row whose cells are text. *)
Definition messages_of (index complex_id cdr3 antigen : string)
    (mhc_type gene species : cell) : list string :=
  (if negb (Re.re_match record_id_pattern index)
   then ["Bad record identifier"] else [])
  ++ (if negb (Re.re_match complex_id_pattern complex_id)
      then ["Bad complex identifier"] else [])
  ++ (if negb (Re.re_match aa_pattern cdr3)
      then ["Bad CDR3 sequence"] else [])
  ++ (if negb (bool_decide (antigen = "")) && negb (Re.re_match aa_pattern antigen)
      then ["Bad antigen sequence"] else [])
  ++ (if negb (cell_in mhc_type allowed_mhcs)
      then ["MHC type should be in ['MHCI', 'MHCII']"] else [])
  ++ (if negb (cell_in gene allowed_genes)
      then ["TCR gene type should be in ['TRA', 'TRB']"] else [])
  ++ (if negb (cell_in species allowed_species)
      then ["Species should be in ['HomoSapiens', 'MusMusculus', 'RattusNorvegicus', 'MacacaMulatta']"]
      else []).

(** The branch test of the fix loop, the right way up: the row is taken as
    fixed. *)
Definition resolvable (f : Fix) : bool :=
  good f || (v_canonical f && j_canonical f).

(** What the pass of the fix loop over row [x] does to a row [r] of the
    frame. *)
Definition fix_row (x r : string * (Row * Fix)) : string * (Row * Fix) :=
  if resolvable x.2.2 && bool_decide (r.1 = x.1) then
    (r.1,
     (set_cell "j.segm" (closest_j_id x.2.2)
        (set_cell "v.segm" (closest_v_id x.2.2)
           (set_cell "cdr3" (fixed_cdr3 x.2.2) r.2.1)),
      r.2.2))
  else r.

(** A row after its own fix. *)
Definition fixed_row (r : string * (Row * Fix)) : string * (Row * Fix) :=
  fix_row r r.

(** The entries of [unfixed_cdr3] a frame gives rise to. *)
Definition unfixed_of (rows : list (string * (Row * Fix))) : list Unfixed :=
  (λ r, unfixed_entry r.1 r.2.2) <$> filter (λ r, resolvable r.2.2 = false) rows.

(** The text of an export of the required columns. *)
Definition raw_export (df : DataFrame) : Table :=
  (df_index_name df :: required_columns)
  :: ((λ r, r.1 :: (write_cell "NA" ∘ get r.2 <$> required_columns)) <$> df_rows df).

(** A cell of the final export: the fixed value in the three columns the
    fix loop overwrites, the cell read back from the fixer elsewhere. *)
Definition final_cell (r : string * (Row * Fix)) (c : string) : cell :=
  if bool_decide (c = "cdr3") then fixed_cdr3 r.2.2
  else if bool_decide (c = "v.segm") then closest_v_id r.2.2
  else if bool_decide (c = "j.segm") then closest_j_id r.2.2
  else get r.2.1 c.

Definition final_line (r : string * (Row * Fix)) : list string :=
  r.1 :: (write_cell "NA" ∘ final_cell r <$> required_columns).

Definition final_export (fixed : FixedFrame) : Table :=
  (fixed_index_name fixed :: required_columns)
  :: (final_line <$> fixed_rows fixed).

(** ** Sample data *)

(** A line of a chunk with all the required columns, in their order. *)
Definition sample_fields (complex_id cdr3 gene species antigen : string)
    : list string :=
  [complex_id; cdr3; "TRBV1"; "TRBJ1"; gene; species;
   "HLA-A*02"; "B2M"; "MHCI"; antigen; "gag"; "HIV-1";
   "tetramer-sort"; "PMID:1"; "1"].

Definition sample_chunk (file index_name : string) (columns : list string)
    (lines : list (string * list string)) : Chunk :=
  {| chunk_file := file; chunk_index_name := index_name;
     chunk_columns := columns; chunk_lines := lines |}.

(** Two well-formed chunks with one unpaired record each, the same but for
    the record id. *)
Definition chunk_a : Chunk :=
  sample_chunk "a.txt" "record.id" required_columns
    [("VDJDBR00000001",
      sample_fields "VDJDBC00000000" "CASSL" "TRB" "HomoSapiens" "")].

Definition chunk_b : Chunk :=
  sample_chunk "b.txt" "record.id" required_columns
    [("VDJDBR00000002",
      sample_fields "VDJDBC00000000" "CASSL" "TRB" "HomoSapiens" "")].

(** A chunk with a digit in a cdr3 and a lower-case antigen. *)
Definition chunk_bad_cdr3 : Chunk :=
  sample_chunk "bad.txt" "record.id" required_columns
    [("VDJDBR00000004",
      sample_fields "VDJDBC00000000" "CASSLX1" "TRB" "HomoSapiens" "glc")].

(** A chunk with one record in a complex of its own. *)
Definition chunk_lonely : Chunk :=
  sample_chunk "lonely.txt" "record.id" required_columns
    [("VDJDBR00000005",
      sample_fields "VDJDBC00000001" "CASSL" "TRB" "HomoSapiens" "")].

(** A chunk with a complex of two records that differ in species. *)
Definition chunk_mixed_pair : Chunk :=
  sample_chunk "pair.txt" "record.id" required_columns
    [("VDJDBR00000006",
      sample_fields "VDJDBC00000002" "CAVSL" "TRA" "HomoSapiens" "");
     ("VDJDBR00000007",
      sample_fields "VDJDBC00000002" "CASSL" "TRB" "MusMusculus" "")].

(** A chunk with a well-formed complex: an alpha and a beta chain. *)
Definition chunk_pair : Chunk :=
  sample_chunk "pair.txt" "record.id" required_columns
    [("VDJDBR00000008",
      sample_fields "VDJDBC00000003" "CAVSL" "TRA" "HomoSapiens" "GLCTLVAML");
     ("VDJDBR00000009",
      sample_fields "VDJDBC00000003" "CASSF" "TRB" "HomoSapiens" "GLCTLVAML")].

(** A chunk that defines the record id of [chunk_a] again. *)
Definition chunk_a_again : Chunk :=
  sample_chunk "again.txt" "record.id" required_columns
    [("VDJDBR00000001",
      sample_fields "VDJDBC00000000" "CASSF" "TRB" "MusMusculus" "")].

(** A chunk without the cdr3 column. *)
Definition chunk_no_cdr3 : Chunk :=
  sample_chunk "short.txt" "record.id"
    ["complex.id"; "v.segm"; "j.segm"; "gene"; "species";
     "mhc.a"; "mhc.b"; "mhc.type";
     "antigen"; "antigen.gene"; "antigen.species";
     "method"; "reference"; "reference.id"] [].

(** A chunk with every required column whose first column is named foo. *)
Definition chunk_foo : Chunk :=
  sample_chunk "foo.txt" "foo" required_columns
    [("VDJDBR00000003",
      sample_fields "VDJDBC00000000" "CASSY" "TRB" "HomoSapiens" "")].

(** A chunk with both defects. *)
Definition chunk_foo_no_cdr3 : Chunk :=
  sample_chunk "both.txt" "foo" (chunk_columns chunk_no_cdr3) [].

(** The table merged from sample chunks (the empty table when the merge
    fails). *)
Definition table (chunks : list Chunk) : DataFrame :=
  match ingest chunks with
  | Ok df => df
  | _ => empty_df
  end.

(** The row a line of sample fields is read as. *)
Definition sample_row (complex_id cdr3 gene species antigen : string) : Row :=
  read_row [] false required_columns
    (sample_fields complex_id cdr3 gene species antigen).

(** A verdict of the fixer with the given flags. *)
Definition sample_fix (cdr3 : string) (is_good v j : bool) : Fix :=
  {| fixed_cdr3 := Some cdr3;
     closest_v_id := Some "TRBV1*01";
     closest_j_id := Some "TRBJ1*01";
     v_canonical := v;
     j_canonical := j;
     good := is_good;
     v_fix_type := Some "NoFixNeeded";
     j_fix_type := Some "ChangeSegment" |}.

(** A stand-in for the fixer: it hands back the lines of the raw export,
    read with the default NA markers, each with the same verdict. *)
Definition sample_fixer (verdict : Fix) (raw : Table) : option FixedFrame :=
  match raw with
  | (index_name :: columns) :: lines =>
      Some {| fixed_index_name := index_name;
              fixed_columns := columns;
              fixed_rows :=
                omap (λ l, match l with
                           | index :: fields =>
                               Some (index, (read_row [] true columns fields, verdict))
                           | [] => None
                           end) lines |}
  | _ => None
  end.


Definition fixed_of (verdict : Fix) (chunks : list Chunk) : FixedFrame :=
  match sample_fixer verdict (raw_export (table chunks)) with
  | Some fixed => fixed
  | None => {| fixed_index_name := ""; fixed_columns := []; fixed_rows := [] |}
  end.

(** A table as the fixer returns it: the first record is good, the second
    has only its j segment canonical. *)
Definition fixed_sample : FixedFrame :=
  {| fixed_index_name := "record.id";
     fixed_columns := required_columns;
     fixed_rows :=
       [("VDJDBR00000001",
         (sample_row "VDJDBC00000000" "CASSL" "TRB" "HomoSapiens" "",
          sample_fix "CASSLF" true false false));
        ("VDJDBR00000002",
         (sample_row "VDJDBC00000000" "CASSY" "TRB" "HomoSapiens" "",
          sample_fix "CASSYF" false false true))] |}.

(** ** Vocabulary of the further properties *)

(** Every character of the text is one the atom matches. *)
Fixpoint all_match (a : Re.atom) (s : string) : bool :=
  match s with
  | EmptyString => true
  | String c s' => Re.atom_matches a c && all_match a s'
  end.

(** The text that is one newline. *)
Definition newline_text : string := String Re.newline EmptyString.

(** The twenty letters of [aa_pattern]. *)
Definition amino_acid : Re.atom := Re.OneOf "ARNDCEQGHILKMFPSTWYV".

(** The columns of the table merged from chunks: those of the table so far,
    then in turn the columns of each chunk that are new. *)
Definition merged_columns (columns : list string) (chunks : list Chunk)
    : list string :=
  foldl (λ columns chunk,
           columns ++ filter (λ x, x ∉ columns) (chunk_columns chunk))
        columns chunks.

(** The rows of a table with a given complex id, in the order of the
    table: the group [groupby] makes for that id. *)
Definition group_of (df : DataFrame) (index : string) : list (string * Row) :=
  filter (λ r, get r.2 "complex.id" = Some index) (df_rows df).

(** The consistency columns on which two rows differ. *)
Definition unmatched_cols (row0 row1 : Row) : list string :=
  filter (λ col_name, cell_ne (get row0 col_name) (get row1 col_name))
         complex_match_cols.

(** The messages of a complex whose first two rows are [r0] and [r1] and
    that has the further rows [rest]. *)
Definition complex_messages (r0 r1 : string * Row) (rest : list (string * Row))
    : list string :=
  (if bool_decide (rest ≠ [])
   then ["Number of entries in complex should be 2"] else [])
  ++ (if bool_decide (unmatched_cols r0.2 r1.2 ≠ [])
      then ["The following columns are not matching within complex entries"
            +:+ py_str (unmatched_cols r0.2 r1.2)]
      else []).

(** A fixer whose process fails. *)
Definition failing_fixer (raw : Table) : option FixedFrame := None.

(** A group the complex check finds nothing wrong with: no row, or two rows
    with the same text in every consistency column. *)
Definition paired (group : list (string * Row)) : Prop :=
  group = []
  ∨ ∃ r0 r1,
      group = [r0; r1]
      ∧ ∀ c, c ∈ complex_match_cols →
             ∃ text, get r0.2 c = Some text ∧ get r1.2 c = Some text.

(** Rows the three checks on the merged table find nothing wrong with. *)
Definition clean_rows (rows : list (string * Row)) : Prop :=
  NoDup (content <$> rows.*2)
  ∧ (∀ r, r ∈ rows → check_record r.1 r.2 = Ok [])
  ∧ ∀ index, index ≠ "VDJDBC00000000" →
             paired (filter (λ r, get r.2 "complex.id" = Some index) rows).

(** A stand-in for a fixer that hands back the first line of the raw export
    only. *)
Definition first_line_fixer (verdict : Fix) (raw : Table) : option FixedFrame :=
  sample_fixer verdict (take 2 raw).

(** * Properties *)

(** ** The result monad *)

Lemma bind_Ok {A B} (m : result A) (k : A → result B) (b : B) :
  m ≫= k = Ok b ↔ ∃ a, m = Ok a ∧ k a = Ok b.
Proof.
  destruct m as [a|d|e]; cbn; split.
  - eauto.
  - by intros (a' & [= <-] & Hk).
  - done.
  - by intros (a' & [=] & _).
  - done.
  - by intros (a' & [=] & _).
Qed.

(** ** [get_duplicates] *)

Section get_duplicates_facts.
Context {K : Type} `{EqDecision K} (R : relation K) `{!RelDecision R}.
Implicit Types (k : K) (values : list K).

Lemma occurrences_cons k x values :
  occurrences k (x :: values)
  = (if decide (x = k) then 1 else 0) + occurrences k values.
Proof.
  unfold occurrences. rewrite filter_cons. by destruct (decide (x = k)).
Qed.

Lemma occurrences_pos k values : 0 < occurrences k values ↔ k ∈ values.
Proof.
  induction values as [|x values IH].
  - cbn. rewrite elem_of_nil. lia.
  - rewrite occurrences_cons, elem_of_cons.
    destruct (decide (x = k)) as [->|Hne]; [split; [by left | lia]|].
    rewrite Nat.add_0_l, IH. split; [by right|].
    intros [Heq|Hin]; [by destruct Hne | done].
Qed.

Lemma occurrences_NoDup values :
  NoDup values ↔ ∀ k, occurrences k values ≤ 1.
Proof.
  induction values as [|x values IH].
  - split; [intros _ k; cbn; lia | constructor].
  - rewrite NoDup_cons, IH. split.
    + intros [Hx Hle] k. rewrite occurrences_cons.
      destruct (decide (x = k)) as [->|]; [|apply Hle].
      destruct (decide (0 < occurrences k values)) as [Hpos|]; [|lia].
      by apply occurrences_pos in Hpos.
    + intros Hle. split.
      * intros Hx%occurrences_pos. specialize (Hle x).
        rewrite occurrences_cons, decide_True in Hle by done. lia.
      * intros k. specialize (Hle k). rewrite occurrences_cons in Hle. lia.
Qed.

Lemma elem_of_get_duplicates k values :
  k ∈ get_duplicates R values ↔ 1 < occurrences k values.
Proof.
  unfold get_duplicates.
  rewrite merge_sort_Permutation, list_elem_of_filter, elem_of_remove_dups.
  split; [tauto|]. intros Hk. split; [done|].
  apply occurrences_pos. lia.
Qed.

Lemma get_duplicates_nil values :
  get_duplicates R values = [] ↔ NoDup values.
Proof.
  rewrite occurrences_NoDup. split.
  - intros Hnil k.
    destruct (decide (1 < occurrences k values)) as [Hk|]; [|lia].
    apply elem_of_get_duplicates in Hk. rewrite Hnil in Hk.
    by apply elem_of_nil in Hk.
  - intros Hle. destruct (get_duplicates R values) as [|k l] eqn:E; [done|].
    assert (k ∈ get_duplicates R values) as Hk by (rewrite E; left).
    apply elem_of_get_duplicates in Hk. specialize (Hle k). lia.
Qed.

Lemma occurrences_Permutation k values values' :
  values ≡ₚ values' → occurrences k values = occurrences k values'.
Proof. unfold occurrences. by intros ->. Qed.
End get_duplicates_facts.

(** ** Ingestion *)

Lemma chunk_rows_ids chunk : (chunk_rows chunk).*1 = chunk_ids chunk.
Proof.
  unfold chunk_rows, chunk_ids.
  induction (chunk_lines chunk) as [|[index fields] lines IH]; [done|].
  cbn. by rewrite IH.
Qed.

Lemma ingest_from_app df chunks1 chunks2 :
  ingest_from df (chunks1 ++ chunks2)
  = ingest_from df chunks1 ≫= λ df', ingest_from df' chunks2.
Proof.
  revert df. induction chunks1 as [|chunk chunks1 IH]; intros df; [done|].
  cbn. destruct (ingest_chunk df chunk) as [df'| |]; cbn; [apply IH|done..].
Qed.

Lemma append_Ok df chunk df' :
  append df chunk = Ok df' ↔
    NoDup ((df_rows df).*1 ++ chunk_ids chunk) ∧
    df' = {| df_index_name := df_index_name df;
             df_columns :=
               df_columns df
               ++ filter (λ x, x ∉ df_columns df) (chunk_columns chunk);
             df_rows := df_rows df ++ chunk_rows chunk |}.
Proof.
  unfold append. rewrite <-chunk_rows_ids, <-fmap_app.
  rewrite <-(get_duplicates_nil String.le).
  destruct (get_duplicates _ _) as [|k overlap]; split.
  - by intros [= <-].
  - by intros [_ ->].
  - done.
  - by intros [[=] _].
Qed.

Lemma append_cases df chunk :
  (∃ df', append df chunk = Ok df')
  ∨ (∃ overlap, overlap ≠ [] ∧ append df chunk = Raise (ValueError overlap)).
Proof.
  unfold append. destruct (get_duplicates _ _) as [|k overlap].
  - left. eauto.
  - right. by exists (k :: overlap).
Qed.

Lemma ingest_chunk_schema_ok df chunk :
  schema_ok chunk → ingest_chunk df chunk = append df chunk.
Proof.
  intros [Hmissing Hindex]. unfold ingest_chunk.
  rewrite bool_decide_false by (by intros []).
  by rewrite bool_decide_false by (by intros []).
Qed.

Lemma ingest_chunk_Ok df chunk df' :
  ingest_chunk df chunk = Ok df' ↔ schema_ok chunk ∧ append df chunk = Ok df'.
Proof.
  split; [|intros [Hok ?]; by rewrite ingest_chunk_schema_ok].
  unfold ingest_chunk, schema_ok.
  case_bool_decide as Hmissing; [done|].
  case_bool_decide as Hindex; [done|].
  intros ?. split; [|done]. split.
  - by destruct (decide (missing_cols chunk = [])).
  - by destruct (decide (chunk_index_name chunk = index_column)).
Qed.

Lemma ingest_from_Ok df chunks df' :
  ingest_from df chunks = Ok df' →
  Forall schema_ok chunks
  ∧ df_rows df' = df_rows df ++ (chunks ≫= chunk_rows)
  ∧ (df_rows df').*1 = (df_rows df).*1 ++ (chunks ≫= chunk_ids)
  ∧ df_index_name df' = df_index_name df
  ∧ df_columns df ⊆ df_columns df'
  ∧ (chunks ≠ [] ∨ NoDup (df_rows df).*1 → NoDup (df_rows df').*1).
Proof.
  revert df. induction chunks as [|chunk chunks IH]; intros df.
  - intros [= <-]. rewrite !app_nil_r. split_and!; try done.
    by intros [?|?].
  - cbn. intros (df1 & (Hok & (Hnodup & ->)%append_Ok)%ingest_chunk_Ok & Hrest)%bind_Ok.
    destruct (IH _ Hrest) as (Hoks & Hrows & Hids & Hname & Hcols & Hnd).
    cbn in *. split_and!.
    + by constructor.
    + by rewrite Hrows, <-app_assoc.
    + by rewrite Hids, fmap_app, chunk_rows_ids, <-app_assoc.
    + done.
    + intros c Hc. apply Hcols, elem_of_app. by left.
    + intros _. apply Hnd. right. by rewrite fmap_app, chunk_rows_ids.
Qed.

Lemma ingest_from_schema_ok df chunks :
  Forall schema_ok chunks →
  (∃ df', ingest_from df chunks = Ok df')
  ∨ (∃ overlap, overlap ≠ [] ∧ ingest_from df chunks = Raise (ValueError overlap)).
Proof.
  intros Hoks. revert df. induction Hoks as [|chunk chunks Hok _ IH]; intros df.
  - left. by exists df.
  - cbn. rewrite ingest_chunk_schema_ok by done.
    destruct (append_cases df chunk) as [[df' ->]|(overlap & ? & ->)]; cbn.
    + apply IH.
    + right. eauto.
Qed.

Lemma occurrences_app {K} `{EqDecision K} (k : K) (l1 l2 : list K) :
  occurrences k (l1 ++ l2) = occurrences k l1 + occurrences k l2.
Proof. unfold occurrences. by rewrite filter_app, length_app. Qed.

Lemma NoDup_bind_lookup {A B} (f : A → list B) (l : list A) i j a b k :
  NoDup (l ≫= f) → l !! i = Some a → l !! j = Some b →
  k ∈ f a → k ∈ f b → i = j.
Proof.
  revert i j. induction l as [|x l IH]; intros i j; [done|].
  rewrite bind_cons, NoDup_app. intros (_ & Hdisj & Hnd) Hi Hj Ha Hb.
  destruct i as [|i], j as [|j]; cbn in *; simplify_eq.
  - done.
  - destruct (Hdisj k Ha). apply list_elem_of_bind.
    exists b. eauto using list_elem_of_lookup_2.
  - destruct (Hdisj k Hb). apply list_elem_of_bind.
    exists a. eauto using list_elem_of_lookup_2.
  - f_equal. eauto.
Qed.

Lemma ingest_Ok chunks df :
  ingest chunks = Ok df →
  Forall schema_ok chunks
  ∧ df_rows df = chunks ≫= chunk_rows
  ∧ (df_rows df).*1 = chunks ≫= chunk_ids
  ∧ NoDup (chunks ≫= chunk_ids)
  ∧ df_index_name df = index_column
  ∧ required_columns ⊆ df_columns df.
Proof.
  intros (Hoks & Hrows & Hids & Hname & Hcols & Hnd)%ingest_from_Ok.
  cbn in *. split_and!; try done.
  rewrite <-Hids. apply Hnd. right. constructor.
Qed.

(** ** The schema checks *)

Lemma elem_of_missing_cols chunk x :
  x ∈ missing_cols chunk ↔ x ∈ required_columns ∧ x ∉ chunk_columns chunk.
Proof. unfold missing_cols. rewrite list_elem_of_filter. tauto. Qed.

Lemma ingest_chunk_missing df chunk :
  missing_cols chunk ≠ [] →
  ingest_chunk df chunk
  = Exit (MissingColumns (chunk_file chunk) (missing_cols chunk)).
Proof. intros ?. unfold ingest_chunk. by rewrite bool_decide_true. Qed.

Lemma ingest_chunk_bad_index df chunk :
  missing_cols chunk = [] → chunk_index_name chunk ≠ index_column →
  ingest_chunk df chunk = Exit (BadIndexColumn (chunk_file chunk)).
Proof.
  intros Hmissing ?. unfold ingest_chunk.
  rewrite bool_decide_false by (by intros []). by rewrite bool_decide_true.
Qed.

Lemma ingest_reaches chunks chunk rest df :
  ingest chunks = Ok df →
  ingest (chunks ++ chunk :: rest)
  = ingest_chunk df chunk ≫= λ df', ingest_from df' rest.
Proof. intros Hdf. unfold ingest in *. by rewrite ingest_from_app, Hdf. Qed.

(** C10, as stated, at a chunk with both defects: the index column is named
    foo, and the run does not fail with the diagnostic for the index column
    but with the one for the missing column. *)
Lemma missing_columns_hide_bad_index :
  chunk_index_name chunk_foo_no_cdr3 ≠ index_column
  ∧ ingest [chunk_foo_no_cdr3] = Exit (MissingColumns "both.txt" ["cdr3"])
  ∧ ingest [chunk_foo_no_cdr3] ≠ Exit (BadIndexColumn "both.txt").
Proof. split_and!; [by vm_compute | by vm_compute | by vm_compute]. Qed.

(** C10 (amended): for a chunk the ingestion loop reaches, the missing
    columns are exactly the required columns absent from the chunk; if there
    are any, the run fails with MissingColumns naming the file and them;
    if there are none and the index column is not named record.id, the run
    fails with BadIndexColumn naming the file; and a chunk whose index column
    has another name is in either case not merged: the run ends there with a
    diagnostic. *)
Theorem schema_checks_in_order chunks chunk rest df :
  ingest chunks = Ok df →
  (∀ x, x ∈ missing_cols chunk
        ↔ x ∈ required_columns ∧ x ∉ chunk_columns chunk)
  ∧ (missing_cols chunk ≠ [] →
     ingest (chunks ++ chunk :: rest)
     = Exit (MissingColumns (chunk_file chunk) (missing_cols chunk)))
  ∧ (missing_cols chunk = [] → chunk_index_name chunk ≠ index_column →
     ingest (chunks ++ chunk :: rest)
     = Exit (BadIndexColumn (chunk_file chunk)))
  ∧ (chunk_index_name chunk ≠ index_column →
     ∃ d, ingest (chunks ++ chunk :: rest) = Exit d).
Proof.
  intros Hdf. rewrite (ingest_reaches _ _ _ _ Hdf). split_and!.
  - apply elem_of_missing_cols.
  - intros ?. by rewrite ingest_chunk_missing.
  - intros ??. by rewrite ingest_chunk_bad_index.
  - intros ?. destruct (decide (missing_cols chunk = [])).
    + rewrite ingest_chunk_bad_index by done. eauto.
    + rewrite ingest_chunk_missing by done. eauto.
Qed.

Lemma schema_checks_in_order_witness :
  ingest ([chunk_a] ++ chunk_foo :: [chunk_b])
  = Exit (BadIndexColumn "foo.txt").
Proof.
  eapply (schema_checks_in_order [chunk_a] chunk_foo [chunk_b]).
  - reflexivity.
  - reflexivity.
  - by vm_compute.
Defined.

(** C7, as stated, at two chunks with a schema error each: the failure names
    one of them only, the one processed first. *)
Lemma one_schema_error_per_run :
  ¬ schema_ok chunk_no_cdr3 ∧ ¬ schema_ok chunk_foo
  ∧ ingest [chunk_no_cdr3; chunk_foo] = Exit (MissingColumns "short.txt" ["cdr3"])
  ∧ ingest [chunk_foo; chunk_no_cdr3] = Exit (BadIndexColumn "foo.txt").
Proof.
  split_and!; [by intros [[=] _] | by intros [_ [=]] | by vm_compute..].
Qed.

(** C7 (amended): the chunk-ingestion loop ends at the first chunk with a
    schema error.  The run fails there with that chunk's diagnostic alone
    (its missing columns, or else its index column), and the chunks after it
    are not looked at: the outcome is the same whatever follows. *)
Theorem first_schema_error_ends_run chunks chunk rest df :
  ingest chunks = Ok df → ¬ schema_ok chunk →
  ingest (chunks ++ chunk :: rest) = ingest (chunks ++ [chunk])
  ∧ (ingest (chunks ++ chunk :: rest)
       = Exit (MissingColumns (chunk_file chunk) (missing_cols chunk))
     ∨ ingest (chunks ++ chunk :: rest)
       = Exit (BadIndexColumn (chunk_file chunk))).
Proof.
  intros Hdf Hbad. rewrite !(ingest_reaches _ _ _ _ Hdf).
  destruct (decide (missing_cols chunk = [])) as [Hnone|Hsome].
  - assert (chunk_index_name chunk ≠ index_column) by (by intros ?; apply Hbad).
    rewrite ingest_chunk_bad_index by done. split; [done | by right].
  - rewrite ingest_chunk_missing by done. split; [done | by left].
Qed.

Lemma first_schema_error_ends_run_witness :
  ingest ([chunk_a] ++ chunk_no_cdr3 :: [chunk_foo])
  = ingest ([chunk_a] ++ [chunk_no_cdr3]).
Proof.
  eapply (first_schema_error_ends_run [chunk_a] chunk_no_cdr3 [chunk_foo]).
  - reflexivity.
  - by intros [[=] _].
Defined.


(** ** The merge *)

Lemma ingest_from_overlap df chunks overlap :
  ingest_from df chunks = Raise (ValueError overlap) →
  overlap ≠ []
  ∧ ∀ k, k ∈ overlap → 1 < occurrences k ((df_rows df).*1 ++ chunks ≫= chunk_ids).
Proof.
  revert df. induction chunks as [|chunk chunks IH]; intros df; [done|].
  cbn. destruct (ingest_chunk df chunk) as [df'| |e] eqn:Hchunk; cbn; [|done|].
  - apply ingest_chunk_Ok in Hchunk as [_ [_ ->]%append_Ok].
    intros [Hne Hocc]%IH. split; [done|]. intros k Hk%Hocc.
    cbn in Hk. by rewrite fmap_app, chunk_rows_ids, <-app_assoc in Hk.
  - intros [= ->]. revert Hchunk. unfold ingest_chunk.
    case_bool_decide; [done|]. case_bool_decide; [done|].
    unfold append. rewrite fmap_app, chunk_rows_ids.
    destruct (get_duplicates _ _) as [|k0 l] eqn:Hdup; [done|].
    intros [= <-]. split; [done|]. intros k Hk.
    rewrite <-Hdup in Hk. apply elem_of_get_duplicates in Hk.
    rewrite app_assoc, occurrences_app. lia.
Qed.

(** C9: when two chunks of a set define the same record id, no processing
    order of the set yields a merged table; and when the chunks are ones the
    merge gets to see (each passes the schema checks), the run dies in
    [df.append(..., verify_integrity=True)] with the error for overlapping
    index values, which names only record ids defined twice. *)
Theorem duplicate_key_in_any_order chunks chunks' :
  chunks' ≡ₚ chunks →
  (∃ i j a b k, i ≠ j ∧ chunks !! i = Some a ∧ chunks !! j = Some b
                ∧ k ∈ chunk_ids a ∧ k ∈ chunk_ids b) →
  succeeded (ingest chunks') = false
  ∧ (Forall schema_ok chunks →
     ∃ overlap, ingest chunks' = Raise (ValueError overlap)
                ∧ overlap ≠ []
                ∧ ∀ k, k ∈ overlap → 1 < occurrences k (chunks ≫= chunk_ids)).
Proof.
  intros Hperm (i & j & a & b & k & Hij & Hi & Hj & Ha & Hb).
  assert (∀ df, ingest chunks' ≠ Ok df) as Hfails.
  { intros df (_ & _ & _ & Hnd & _)%ingest_Ok. rewrite Hperm in Hnd.
    by destruct Hij, (NoDup_bind_lookup _ _ _ _ _ _ _ Hnd Hi Hj Ha Hb). }
  split.
  - destruct (ingest chunks') as [df| |] eqn:E; [by destruct (Hfails df)|done..].
  - intros Hoks. rewrite <-Hperm in Hoks.
    destruct (ingest_from_schema_ok empty_df _ Hoks)
      as [[df Hdf]|(overlap & _ & Hraise)]; [by destruct (Hfails df)|].
    exists overlap. split; [done|].
    destruct (ingest_from_overlap _ _ _ Hraise) as [Hne Hocc].
    split; [done|]. intros k' Hk'%Hocc.
    erewrite occurrences_Permutation; [exact Hk'|]. by rewrite Hperm.
Qed.

Lemma duplicate_key_in_any_order_witness :
  succeeded (ingest [chunk_a_again; chunk_b; chunk_a]) = false
  ∧ ∃ overlap, ingest [chunk_a_again; chunk_b; chunk_a] = Raise (ValueError overlap)
               ∧ overlap ≠ []
               ∧ ∀ k, k ∈ overlap →
                   1 < occurrences k ([chunk_a; chunk_b; chunk_a_again] ≫= chunk_ids).
Proof.
  assert ([chunk_a_again; chunk_b; chunk_a] ≡ₚ [chunk_a; chunk_b; chunk_a_again])
    as Hperm by (symmetry; apply (Permutation_rev [chunk_a; chunk_b; chunk_a_again])).
  assert (∃ i j a b k, i ≠ j
            ∧ [chunk_a; chunk_b; chunk_a_again] !! i = Some a
            ∧ [chunk_a; chunk_b; chunk_a_again] !! j = Some b
            ∧ k ∈ chunk_ids a ∧ k ∈ chunk_ids b) as Hclash.
  { exists 0, 2, chunk_a, chunk_a_again, "VDJDBR00000001".
    split_and!; [lia | reflexivity | reflexivity | by left | by left]. }
  destruct (duplicate_key_in_any_order _ _ Hperm Hclash) as [Hfail Hraise].
  split; [exact Hfail|]. apply Hraise.
  repeat constructor.
Defined.


(** ** The check for duplicates *)

Lemma fmap_eq_pointwise {A B} (f g : A → B) (l : list A) :
  f <$> l = g <$> l ↔ ∀ x, x ∈ l → f x = g x.
Proof.
  induction l as [|x l IH]; cbn.
  - split; [by intros _ x ?%elem_of_nil | done].
  - split.
    + intros [= Hx Hl] y [->|Hy]%elem_of_cons; [done|]. by apply IH.
    + intros Hall. f_equal; [apply Hall; by left|].
      apply IH. intros y Hy. apply Hall. by right.
Qed.

Lemma content_eq row row' :
  content row = content row'
  ↔ ∀ c, c ∈ required_columns → get row c = get row' c.
Proof. apply fmap_eq_pointwise. Qed.

Lemma repeated_content_NoDup df :
  repeated_content df ↔ ¬ NoDup (content <$> (df_rows df).*2).
Proof.
  rewrite NoDup_alt. split.
  - intros (i & j & r & r' & Hij & Hi & Hj & Hsame%content_eq) Hinj.
    apply Hij, (Hinj i j (content r.2)).
    + by rewrite !list_lookup_fmap, Hi.
    + by rewrite !list_lookup_fmap, Hj, Hsame.
  - intros Hnot.
    destruct (decide (NoDup (content <$> (df_rows df).*2))) as [Hnd|Hdup];
      [by destruct Hnot; apply NoDup_alt|].
    clear Hnot. unfold repeated_content.
    induction (df_rows df) as [|r rows IH]; [destruct Hdup; constructor|].
    cbn in Hdup. rewrite NoDup_cons in Hdup.
    destruct (decide (content r.2 ∈ content <$> rows.*2)) as [Hin|Hnotin].
    + apply list_elem_of_lookup in Hin as [j Hj].
      rewrite !list_lookup_fmap in Hj.
      destruct (rows !! j) as [r'|] eqn:Hr'; [|done].
      cbn in Hj. apply (inj Some) in Hj.
      exists 0, (S j), r, r'. split_and!; [lia|done|done|].
      by apply content_eq.
    + destruct IH as (i & j & r1 & r2 & Hij & Hi & Hj & Hsame); [tauto|].
      exists (S i), (S j), r1, r2. split_and!; [lia|done..].
Qed.

(** C3, as stated, at a table holding the same record under two ids: the
    check fails, and what the diagnostic lists is the repeated tuple of
    required-column values; neither record id occurs in it. *)
Lemma duplicates_are_listed_by_content :
  let t := Some <$> sample_fields "VDJDBC00000000" "CASSL" "TRB" "HomoSapiens" "" in
  (ingest [chunk_a; chunk_b] ≫= λ df, Ok ((df_rows df).*1))
  = Ok ["VDJDBR00000001"; "VDJDBR00000002"]
  ∧ (ingest [chunk_a; chunk_b] ≫= check_duplicates) = Exit (DuplicateContent [t])
  ∧ (Some "VDJDBR00000001" ∉ t)
  ∧ (Some "VDJDBR00000002" ∉ t).
Proof.
  split_and!; [by vm_compute | by vm_compute | |];
    apply (bool_decide_unpack _); by vm_compute.
Qed.

(** C3 (amended): the check for duplicates fails exactly on the tables where
    two rows (at different positions) agree on every required column.  The
    diagnostic then lists the repeated contents, each tuple of required-column
    values that two or more rows hold, and not the record ids of those rows.
    A table without such rows passes through unchanged. *)
Theorem check_duplicates_spec df :
  (repeated_content df →
   ∃ duplicates,
     check_duplicates df = Exit (DuplicateContent duplicates)
     ∧ duplicates ≠ []
     ∧ ∀ t, t ∈ duplicates ↔ 1 < occurrences t (content <$> (df_rows df).*2))
  ∧ (¬ repeated_content df → check_duplicates df = Ok df).
Proof.
  rewrite repeated_content_NoDup. unfold check_duplicates.
  rewrite <-(get_duplicates_nil tuple_le). split.
  - intros Hdup. exists (get_duplicates tuple_le (content <$> (df_rows df).*2)).
    split; [by destruct (get_duplicates _ _)|]. split; [done|].
    intros t. apply elem_of_get_duplicates.
  - intros Hnil. destruct (get_duplicates _ _); [done|by destruct Hnil].
Qed.

Lemma check_duplicates_spec_witness :
  (∃ duplicates,
     check_duplicates (table [chunk_a; chunk_b])
     = Exit (DuplicateContent duplicates) ∧ duplicates ≠ [])
  ∧ check_duplicates (table [chunk_a; chunk_lonely])
    = Ok (table [chunk_a; chunk_lonely]).
Proof.
  split.
  - destruct (check_duplicates_spec (table [chunk_a; chunk_b])) as [Hrep _].
    destruct Hrep as (duplicates & Hexit & Hne & _).
    + apply repeated_content_NoDup, (bool_decide_unpack _). by vm_compute.
    + exists duplicates. split; [exact Hexit | exact Hne].
  - apply (check_duplicates_spec (table [chunk_a; chunk_lonely])).
    intros Hrep%repeated_content_NoDup. apply Hrep.
    apply (bool_decide_unpack _). by vm_compute.
Defined.


(** ** Reading chunks *)








(** ** The record check *)

Lemma check_record_Ok index row messages :
  check_record index row = Ok messages ↔
  ∃ complex_id cdr3 antigen,
    get row "complex.id" = Some complex_id
    ∧ get row "cdr3" = Some cdr3
    ∧ get row "antigen" = Some antigen
    ∧ messages = messages_of index complex_id cdr3 antigen
                   (get row "mhc.type") (get row "gene") (get row "species").
Proof.
  unfold check_record, messages_of.
  destruct (get row "complex.id") as [complex_id|]; cbn;
    [|split; [done | by intros (? & ? & ? & [=] & _)]].
  destruct (get row "cdr3") as [cdr3|]; cbn;
    [|split; [done | by intros (? & ? & ? & _ & [=] & _)]].
  destruct (get row "antigen") as [antigen|]; cbn;
    [|split; [done | by intros (? & ? & ? & _ & _ & [=] & _)]].
  split.
  - intros Hm. exists complex_id, cdr3, antigen. split_and!; try done.
    destruct (bool_decide (antigen = "")); cbn in *; by injection Hm as <-.
  - intros (? & ? & ? & [= <-] & [= <-] & [= <-] & ->).
    by destruct (bool_decide (antigen = "")).
Qed.

Lemma check_record_total index row :
  is_Some (get row "complex.id") → is_Some (get row "cdr3") →
  is_Some (get row "antigen") →
  ∃ messages, check_record index row = Ok messages.
Proof.
  intros [complex_id ?] [cdr3 ?] [antigen ?]. eexists.
  apply check_record_Ok. by exists complex_id, cdr3, antigen.
Qed.

Lemma record_loop_Ok (acc : gmap string (list string)) rows :
  NoDup rows.*1 →
  (∀ r, r ∈ rows → acc !! r.1 = None) →
  (∀ r, r ∈ rows → ∃ messages, check_record r.1 r.2 = Ok messages) →
  ∃ bad_records,
    record_loop acc rows = Ok bad_records
    ∧ ∀ index messages,
        bad_records !! index = Some messages ↔
          (messages ≠ []
           ∧ ∃ row, (index, row) ∈ rows ∧ check_record index row = Ok messages)
          ∨ acc !! index = Some messages.
Proof.
  revert acc.
  induction rows as [|[index0 row0] rows IH]; intros acc Hnd Hfresh Htotal.
  - exists acc. split; [done|]. intros index messages. split; [by right|].
    by intros [(_ & row & []%elem_of_nil & _)|?].
  - cbn in Hnd. apply NoDup_cons in Hnd as [Hnew Hnd].
    destruct (Htotal (index0, row0)) as [messages0 Hm0]; [by left|].
    cbn in Hm0. cbn. unfold record_step. cbn. rewrite Hm0. cbn.
    set (acc' := if bool_decide (messages0 ≠ [])
                 then <[index0:=messages0]> acc else acc).
    destruct (IH acc' Hnd) as (bad_records & -> & Hbad).
    { intros r Hr. unfold acc'. case_bool_decide; [|apply Hfresh; by right].
      rewrite lookup_insert_ne; [apply Hfresh; by right|].
      intros ->. apply Hnew, list_elem_of_fmap. by exists r. }
    { intros r Hr. apply Htotal. by right. }
    exists bad_records. split; [done|]. intros index messages.
    rewrite Hbad. clear Hbad IH. unfold acc'. split.
    + intros [(Hne & row & Hin & Hm)|Hacc].
      * left. split; [done|]. exists row. split; [by right | done].
      * case_bool_decide as Hne0; [|by right].
        destruct (decide (index0 = index)) as [->|Hother].
        -- rewrite lookup_insert_eq in Hacc. injection Hacc as ->.
           left. split; [done|]. exists row0. split; [by left | done].
        -- rewrite lookup_insert_ne in Hacc by done. by right.
    + intros [(Hne & row & [[= -> ->]|Hin]%elem_of_cons & Hm)|Hacc].
      * right. rewrite Hm0 in Hm. injection Hm as ->.
        rewrite bool_decide_true by done. apply lookup_insert_eq.
      * left. split; [done|]. by exists row.
      * right. case_bool_decide; [|done].
        rewrite lookup_insert_ne; [done|]. intros ->.
        specialize (Hfresh (index, row0)). cbn in Hfresh.
        rewrite Hfresh in Hacc; [done | by left].
Qed.









(** ** The complex check *)

Lemma complex_step_cases bad_complexes g :
  complex_step bad_complexes g = Raise IndexError
  ∨ ∃ bad_complexes', complex_step bad_complexes g = Ok bad_complexes'.
Proof.
  destruct g as [index group]. unfold complex_step.
  case_bool_decide; [|by right; eexists].
  destruct (group.*2) as [|row0 [|row1 rows]]; [by left..|by right; eexists].
Qed.

Lemma complex_step_single bad_complexes index r :
  index ≠ "VDJDBC00000000" →
  complex_step bad_complexes (index, [r]) = Raise IndexError.
Proof. intros ?. unfold complex_step. by rewrite bool_decide_true. Qed.

Lemma complex_loop_raises bad_complexes groups g :
  g ∈ groups →
  (∀ acc, complex_step acc g = Raise IndexError) →
  complex_loop bad_complexes groups = Raise IndexError.
Proof.
  intros Hg Hraise. revert bad_complexes.
  induction groups as [|g0 groups IH]; intros acc; [by apply elem_of_nil in Hg|].
  cbn. apply elem_of_cons in Hg as [<-|Hg].
  - by rewrite Hraise.
  - destruct (complex_step_cases acc g0) as [->|[acc' ->]]; [done|].
    cbn. by apply IH.
Qed.

Lemma elem_of_groupby column df index :
  (∃ r, r ∈ df_rows df ∧ get r.2 column = Some index) →
  (index, filter (λ r, get r.2 column = Some index) (df_rows df))
    ∈ groupby column df.
Proof.
  intros (r & Hr & Hindex). unfold groupby.
  apply list_elem_of_fmap. exists index. split; [done|].
  rewrite merge_sort_Permutation, elem_of_remove_dups, list_elem_of_omap. eauto.
Qed.

Lemma check_complexes_Exit bad_records df d :
  check_complexes bad_records df = Exit d → d = InvalidComplex bad_records.
Proof.
  unfold check_complexes, bad_complexes_of.
  assert (∀ groups acc d', complex_loop acc groups ≠ Exit d') as Hloop.
  { induction groups as [|g groups IH]; intros acc d'; [done|]. cbn.
    destruct (complex_step_cases acc g) as [->|[acc' ->]]; [done|]. apply IH. }
  destruct (complex_loop _ _) as [bad_complexes|d'|e] eqn:E; cbn.
  - case_bool_decide; [by intros [= <-] | done].
  - by destruct (Hloop _ _ _ E).
  - done.
Qed.

Lemma ingest_from_Exit df chunks d :
  ingest_from df chunks = Exit d →
  (∃ file missing, d = MissingColumns file missing) ∨ (∃ file, d = BadIndexColumn file).
Proof.
  revert df. induction chunks as [|chunk chunks IH]; intros df; [done|].
  cbn. destruct (ingest_chunk df chunk) as [df'|d'|e] eqn:Hchunk; cbn; [apply IH| |done].
  intros [= ->]. revert Hchunk. unfold ingest_chunk, append.
  case_bool_decide; [intros [= <-]; left; eauto|].
  case_bool_decide; [intros [= <-]; right; eauto|].
  by destruct (get_duplicates _ _).
Qed.

Lemma check_records_Ok df bad_records :
  check_records df = Ok bad_records → bad_records = ∅.
Proof.
  unfold check_records. destruct (record_loop _ _) as [bad| |]; cbn; [|done..].
  case_bool_decide as Hbad; [done|]. intros [= <-].
  by destruct (decide (bad = ∅)).
Qed.

Lemma check_record_cases index row :
  check_record index row = Raise TypeError
  ∨ ∃ messages, check_record index row = Ok messages.
Proof.
  destruct (get row "complex.id") as [complex_id|] eqn:Hcomplex;
    [|left; unfold check_record; by rewrite Hcomplex].
  destruct (get row "cdr3") as [cdr3|] eqn:Hcdr3;
    [|left; unfold check_record; by rewrite Hcomplex, Hcdr3].
  destruct (get row "antigen") as [antigen|] eqn:Hantigen;
    [|left; unfold check_record; by rewrite Hcomplex, Hcdr3, Hantigen].
  right. apply check_record_total; by rewrite ?Hcomplex, ?Hcdr3, ?Hantigen.
Qed.

Lemma record_loop_not_Exit bad_records rows d :
  record_loop bad_records rows ≠ Exit d.
Proof.
  revert bad_records. induction rows as [|r rows IH]; intros acc; [done|].
  cbn. unfold record_step.
  destruct (check_record_cases r.1 r.2) as [->|[messages ->]]; [done|].
  apply IH.
Qed.

Lemma check_records_Exit df d :
  check_records df = Exit d → ∃ bad_records, d = InvalidRecord bad_records.
Proof.
  unfold check_records.
  destruct (record_loop _ _) as [bad|d'|e] eqn:Hloop; cbn.
  - case_bool_decide; [|done]. intros [= <-]. eauto.
  - by destruct (record_loop_not_Exit _ _ _ Hloop).
  - done.
Qed.

(** C2: what the code does where the claim fails.  (1) A table in which
    some complex id other than the reserved one has a single row makes the
    loop die with IndexError at [rows[1]], whatever else the table holds:
    nothing is recorded or reported.  (2) When the loop does end with
    violations, the failure carries [bad_records], the dictionary of the
    record check, (3) which in a run is empty at that point. *)
Theorem complex_check_defects :
  (∀ df index,
     index ≠ "VDJDBC00000000" →
     length (filter (λ r, get r.2 "complex.id" = Some index) (df_rows df)) = 1 →
     bad_complexes_of df = Raise IndexError
     ∧ ∀ bad_records, check_complexes bad_records df = Raise IndexError)
  ∧ (∀ bad_records df d,
       check_complexes bad_records df = Exit d → d = InvalidComplex bad_records)
  ∧ (∀ chunks reported,
       validate chunks = Exit (InvalidComplex reported) → reported = ∅).
Proof.
  split_and!.
  - intros df index Hindex Hone.
    assert (bad_complexes_of df = Raise IndexError) as Hraise.
    { destruct (filter _ (df_rows df)) as [|r [|r' group]] eqn:Hgroup; try done.
      assert (r ∈ filter (λ r, get r.2 "complex.id" = Some index) (df_rows df))
        as [Hr ?]%list_elem_of_filter by (rewrite Hgroup; by left).
      eapply complex_loop_raises.
      - apply (elem_of_groupby "complex.id" df index). eauto.
      - intros acc. rewrite Hgroup. by apply complex_step_single. }
    split; [done|]. intros bad_records. unfold check_complexes. by rewrite Hraise.
  - apply check_complexes_Exit.
  - intros chunks reported. unfold validate.
    destruct (ingest chunks) as [df|d|e] eqn:Hdf; cbn; [|intros [= ->]|done].
    2: { by apply ingest_from_Exit in Hdf as [(? & ? & [=])|(? & [=])]. }
    unfold check_duplicates at 1.
    destruct (get_duplicates _ _); cbn; [|done].
    destruct (check_records df) as [bad_records|d|e] eqn:Hbad; cbn; [| |done].
    + apply check_records_Ok in Hbad as ->.
      destruct (check_complexes ∅ df) as [[]|d|e] eqn:Hcomplex; cbn; [done| |done].
      apply check_complexes_Exit in Hcomplex as ->. by intros [= <-].
    + intros [= ->]. by apply check_records_Exit in Hbad as [? [=]].
Qed.

Lemma complex_check_defects_witness :
  bad_complexes_of (table [chunk_a; chunk_lonely]) = Raise IndexError
  ∧ ∀ reported,
      validate [chunk_mixed_pair] = Exit (InvalidComplex reported) →
      reported = ∅.
Proof.
  destruct complex_check_defects as (Hraise & _ & Hempty). split.
  - apply (Hraise (table [chunk_a; chunk_lonely]) "VDJDBC00000001").
    + by vm_compute.
    + vm_compute. reflexivity.
  - apply Hempty.
Defined.

(** The two defects on sample runs: a record alone in its complex ends the
    run with IndexError; a pair that differs in species is found and entered
    in [bad_complexes], and the failure shows the empty [bad_records]. *)
Lemma complex_check_on_samples :
  validate [chunk_a; chunk_lonely] = Raise IndexError
  ∧ (ingest [chunk_mixed_pair] ≫= bad_complexes_of)
    = Ok {[ "VDJDBC00000002" :=
              ["The following columns are not matching within complex entries['species']"] ]}
  ∧ validate [chunk_mixed_pair] = Exit (InvalidComplex ∅).
Proof. split_and!; vm_compute; reflexivity. Qed.


(** ** The fix loop *)

Lemma get_set_cell column value row : get (set_cell column value row) column = value.
Proof.
  unfold get, set_cell. destruct value.
  - apply lookup_insert_eq.
  - apply lookup_delete_eq.
Qed.

Lemma get_set_cell_ne column column' value row :
  column ≠ column' →
  get (set_cell column value row) column' = get row column'.
Proof.
  intros ?. unfold get, set_cell. destruct value.
  - by apply lookup_insert_ne.
  - by apply lookup_delete_ne.
Qed.

Lemma fix_row_index x r : (fix_row x r).1 = r.1.
Proof. unfold fix_row. by destruct (_ && _). Qed.

Lemma fix_row_fix x r : (fix_row x r).2.2 = r.2.2.
Proof. unfold fix_row. by destruct (_ && _). Qed.

Lemma fix_row_other x r : r.1 ≠ x.1 → fix_row x r = r.
Proof.
  intros ?. unfold fix_row. rewrite bool_decide_false by done.
  by rewrite andb_false_r.
Qed.

Lemma fix_step_rows df unfixed_cdr3 x :
  fixed_rows (fix_step (df, unfixed_cdr3) x).1 = fix_row x <$> fixed_rows df.
Proof.
  destruct x as [index [row f]]. unfold fix_step, fix_row, resolvable. cbn.
  destruct (good f || v_canonical f && j_canonical f); cbn.
  - rewrite <-!list_fmap_compose. apply list_fmap_ext. intros _ r _. cbn.
    destruct (decide (r.1 = index)).
    + by repeat (rewrite !(bool_decide_true (r.1 = index)) by done; cbn).
    + by repeat (rewrite !(bool_decide_false (r.1 = index)) by done; cbn).
  - symmetry. apply list_fmap_id.
Qed.

Lemma fix_step_unfixed df unfixed_cdr3 x :
  (fix_step (df, unfixed_cdr3) x).2 = unfixed_cdr3 ++ unfixed_of [x].
Proof.
  destruct x as [index [row f]]. unfold fix_step, unfixed_of, resolvable.
  rewrite filter_cons, filter_nil. cbn.
  destruct (good f || v_canonical f && j_canonical f); cbn.
  - by rewrite app_nil_r.
  - done.
Qed.

Lemma fix_step_frame df unfixed_cdr3 x :
  fixed_index_name (fix_step (df, unfixed_cdr3) x).1 = fixed_index_name df
  ∧ ∀ c, c ∈ fixed_columns df → c ∈ fixed_columns (fix_step (df, unfixed_cdr3) x).1.
Proof.
  destruct x as [index [row f]]. unfold fix_step.
  destruct (negb _); cbn; [done|]. split; [done|]. intros c Hc.
  repeat (case_bool_decide; [|apply elem_of_app; left]); done.
Qed.

Lemma foldl_fix_step df unfixed_cdr3 rows :
  let st := foldl fix_step (df, unfixed_cdr3) rows in
  fixed_rows st.1
  = (λ r, foldl (λ r x, fix_row x r) r rows) <$> fixed_rows df
  ∧ st.2 = unfixed_cdr3 ++ unfixed_of rows
  ∧ fixed_index_name st.1 = fixed_index_name df
  ∧ ∀ c, c ∈ fixed_columns df → c ∈ fixed_columns st.1.
Proof.
  revert df unfixed_cdr3. induction rows as [|x rows IH]; intros df unfixed_cdr3.
  - cbn. rewrite list_fmap_id, app_nil_r. done.
  - cbn [foldl]. destruct (fix_step (df, unfixed_cdr3) x) as [df' unfixed'] eqn:Hstep.
    pose proof (fix_step_rows df unfixed_cdr3 x) as Hrows.
    pose proof (fix_step_unfixed df unfixed_cdr3 x) as Hunfixed.
    pose proof (fix_step_frame df unfixed_cdr3 x) as [Hname Hcols].
    rewrite Hstep in Hrows, Hunfixed, Hname, Hcols. cbn in *.
    destruct (IH df' unfixed') as (IHrows & IHunfixed & IHname & IHcols).
    split_and!.
    + by rewrite IHrows, Hrows, <-list_fmap_compose.
    + rewrite IHunfixed, Hunfixed, <-app_assoc. f_equal.
      unfold unfixed_of. by destruct (decide (resolvable x.2.2 = false)).
    + congruence.
    + auto.
Qed.

Lemma foldl_fix_row_others r rows :
  (∀ x, x ∈ rows → x.1 ≠ r.1) → foldl (λ r x, fix_row x r) r rows = r.
Proof.
  revert r. induction rows as [|x rows IH]; intros r Hothers; [done|].
  cbn. rewrite fix_row_other by (apply not_eq_sym, Hothers; by left).
  apply IH. intros y Hy. apply Hothers. by right.
Qed.

(** With record ids that all differ, the loop leaves each row with its own
    fix applied, or untouched. *)
Lemma fix_loop_rows fixed :
  NoDup (fixed_rows fixed).*1 →
  fixed_rows (fix_loop fixed).1 = fixed_row <$> fixed_rows fixed.
Proof.
  intros Hnd. unfold fix_loop.
  destruct (foldl_fix_step fixed [] (fixed_rows fixed)) as [-> _].
  apply list_fmap_ext. intros i r Hr.
  apply list_elem_of_lookup_2, list_elem_of_split in Hr as (l1 & l2 & Hsplit).
  rewrite Hsplit in Hnd |- *.
  rewrite fmap_app, fmap_cons, NoDup_app, NoDup_cons in Hnd.
  destruct Hnd as (_ & Hl1 & Hl2 & _).
  rewrite foldl_app. cbn [foldl]. rewrite (foldl_fix_row_others r l1).
  - apply foldl_fix_row_others. intros x Hx Heq.
    unfold fixed_row in Heq. rewrite fix_row_index in Heq.
    apply Hl2. rewrite <-Heq. by apply list_elem_of_fmap_2.
  - intros x Hx Heq. apply (Hl1 x.1); [by apply list_elem_of_fmap_2|].
    rewrite Heq. by left.
Qed.

Lemma fix_loop_unfixed fixed : (fix_loop fixed).2 = unfixed_of (fixed_rows fixed).
Proof.
  unfold fix_loop. by destruct (foldl_fix_step fixed [] (fixed_rows fixed)) as (_ & -> & _).
Qed.

Lemma elem_of_unfixed_of rows u :
  u ∈ unfixed_of rows
  ↔ ∃ r, r ∈ rows ∧ resolvable r.2.2 = false ∧ u = unfixed_entry r.1 r.2.2.
Proof.
  unfold unfixed_of. rewrite list_elem_of_fmap. split.
  - intros (r & -> & [? ?]%list_elem_of_filter). by exists r.
  - intros (r & ? & ? & ->). exists r. split; [done|]. by apply list_elem_of_filter.
Qed.

Lemma unfixed_of_nil rows :
  unfixed_of rows = [] ↔ ∀ r, r ∈ rows → resolvable r.2.2 = true.
Proof.
  split.
  - intros Hnil r Hr. destruct (resolvable r.2.2) eqn:E; [done|].
    assert (unfixed_entry r.1 r.2.2 ∈ unfixed_of rows) as Hin
      by (apply elem_of_unfixed_of; by exists r).
    rewrite Hnil in Hin. by apply elem_of_nil in Hin.
  - intros Hall. destruct (unfixed_of rows) as [|u l] eqn:E; [done|].
    assert (u ∈ unfixed_of rows) as (r & Hin & Hr & _)%elem_of_unfixed_of
      by (rewrite E; by left).
    by rewrite (Hall r Hin) in Hr.
Qed.

Lemma apply_fixes_unresolved fixed files :
  unfixed_of (fixed_rows fixed) ≠ [] →
  apply_fixes fixed files
  = (files, Exit (UnresolvedSequences (unfixed_of (fixed_rows fixed)))).
Proof.
  intros Hne. unfold apply_fixes.
  pose proof (fix_loop_unfixed fixed) as Hunfixed.
  destruct (fix_loop fixed) as [df unfixed_cdr3]. cbn in Hunfixed. subst.
  by destruct (unfixed_of (fixed_rows fixed)).
Qed.

Lemma NoDup_fst_agree {A B} (l : list (A * B)) k a b :
  NoDup l.*1 → (k, a) ∈ l → (k, b) ∈ l → a = b.
Proof.
  intros Hnd [i Hi]%list_elem_of_lookup [j Hj]%list_elem_of_lookup.
  assert (i = j) as ->.
  { apply (NoDup_lookup _ _ _ k Hnd); by rewrite list_lookup_fmap, ?Hi, ?Hj. }
  congruence.
Qed.

Lemma resolvable_true f :
  resolvable f = true
  ↔ good f = true ∨ (v_canonical f = true ∧ j_canonical f = true).
Proof. unfold resolvable. by rewrite orb_true_iff, andb_true_iff. Qed.

Lemma resolvable_false f :
  resolvable f = false
  ↔ ¬ (good f = true ∨ (v_canonical f = true ∧ j_canonical f = true)).
Proof. rewrite <-resolvable_true. by destruct (resolvable f). Qed.

(** C5: in a table read back from the fixer (record ids all different), a
    row is put on the unresolved list exactly when neither its good flag is
    true nor both its v.canonical and j.canonical are; otherwise its row in
    the frame gets its fixed.cdr3 as cdr3, its closest.v.id as v.segm and its
    closest.j.id as j.segm, the other columns staying as they were; a row
    left unresolved stays as it was; and a row with good false, v.canonical
    false and j.canonical true is on the list the run then fails with,
    whatever the other rows are. *)
Theorem fix_applied_iff_resolvable fixed index row f :
  NoDup (fixed_rows fixed).*1 →
  (index, (row, f)) ∈ fixed_rows fixed →
  (unfixed_entry index f ∈ (fix_loop fixed).2
   ↔ ¬ (good f = true ∨ (v_canonical f = true ∧ j_canonical f = true)))
  ∧ (good f = true ∨ (v_canonical f = true ∧ j_canonical f = true) →
     ∃ row', (index, (row', f)) ∈ fixed_rows (fix_loop fixed).1
             ∧ get row' "cdr3" = fixed_cdr3 f
             ∧ get row' "v.segm" = closest_v_id f
             ∧ get row' "j.segm" = closest_j_id f
             ∧ ∀ c, c ∉ ["cdr3"; "v.segm"; "j.segm"] → get row' c = get row c)
  ∧ (¬ (good f = true ∨ (v_canonical f = true ∧ j_canonical f = true)) →
     (index, (row, f)) ∈ fixed_rows (fix_loop fixed).1)
  ∧ (good f = false → v_canonical f = false → j_canonical f = true →
     ∀ files, ∃ unfixed_cdr3,
       apply_fixes fixed files = (files, Exit (UnresolvedSequences unfixed_cdr3))
       ∧ unfixed_entry index f ∈ unfixed_cdr3).
Proof.
  intros Hnd Hin. rewrite fix_loop_unfixed, fix_loop_rows by done.
  assert (resolvable f = false → unfixed_entry index f ∈ unfixed_of (fixed_rows fixed))
    as Hlisted.
  { intros Hf. apply elem_of_unfixed_of. by exists (index, (row, f)). }
  split_and!.
  - rewrite <-resolvable_false. split; [|done].
    intros (r & Hr & Hres & Hentry)%elem_of_unfixed_of.
    destruct r as [index' [row' f']]. cbn in *.
    assert (index' = index) as -> by (by injection Hentry).
    by pose proof (NoDup_fst_agree _ _ _ _ Hnd Hin Hr) as [= -> ->].
  - intros Hres%resolvable_true.
    exists (set_cell "j.segm" (closest_j_id f)
              (set_cell "v.segm" (closest_v_id f)
                 (set_cell "cdr3" (fixed_cdr3 f) row))).
    split_and!.
    + apply list_elem_of_fmap. exists (index, (row, f)). split; [|done].
      unfold fixed_row, fix_row. cbn. by rewrite Hres, bool_decide_true.
    + rewrite 2!get_set_cell_ne by done. apply get_set_cell.
    + rewrite get_set_cell_ne by done. apply get_set_cell.
    + apply get_set_cell.
    + intros c Hc. rewrite !get_set_cell_ne; [done|..];
        intros <-; apply Hc; set_unfold; tauto.
  - intros Hres%resolvable_false.
    apply list_elem_of_fmap. exists (index, (row, f)). split; [|done].
    unfold fixed_row, fix_row. cbn. by rewrite Hres.
  - intros Hgood Hv Hj files. exists (unfixed_of (fixed_rows fixed)).
    assert (resolvable f = false) as Hres
      by (unfold resolvable; by rewrite Hgood, Hv).
    split; [|by apply Hlisted]. apply apply_fixes_unresolved.
    intros Hnil. specialize (Hlisted Hres). rewrite Hnil in Hlisted.
    by apply elem_of_nil in Hlisted.
Qed.

Lemma fix_applied_iff_resolvable_witness :
  ∃ unfixed_cdr3,
    apply_fixes fixed_sample ∅ = (∅, Exit (UnresolvedSequences unfixed_cdr3))
    ∧ unfixed_entry "VDJDBR00000002" (sample_fix "CASSYF" false false true)
        ∈ unfixed_cdr3.
Proof.
  apply (fix_applied_iff_resolvable fixed_sample "VDJDBR00000002"
           (sample_row "VDJDBC00000000" "CASSY" "TRB" "HomoSapiens" "")
           (sample_fix "CASSYF" false false true)).
  - apply (bool_decide_unpack _). by vm_compute.
  - apply elem_of_cons. right. apply elem_of_cons. left. reflexivity.
  - reflexivity.
  - reflexivity.
  - reflexivity.
Defined.




(** ** The exports *)

Lemma get_filter_columns (columns : list string) (row : Row) c :
  c ∈ columns → get (filter (λ kv, kv.1 ∈ columns) row) c = get row c.
Proof.
  intros Hc. unfold get. destruct (row !! c) as [text|] eqn:Hrow.
  - by apply map_lookup_filter_Some.
  - apply map_lookup_filter_None. by left.
Qed.

Lemma select_to_csv na_rep df columns :
  columns ⊆ df_columns df →
  ∃ out, select df columns = Ok out
    ∧ to_csv na_rep out
      = (df_index_name df :: columns)
        :: ((λ r, r.1 :: (write_cell na_rep ∘ get r.2 <$> columns)) <$> df_rows df).
Proof.
  intros Hsub. unfold select.
  assert (filter (λ c, c ∉ df_columns df) columns = []) as ->.
  { destruct (filter _ columns) as [|c l] eqn:E; [done|].
    assert (c ∈ filter (λ c, c ∉ df_columns df) columns)
      as [Hnot Hc]%list_elem_of_filter by (rewrite E; by left).
    by destruct Hnot; apply Hsub. }
  eexists. split; [done|]. unfold to_csv. cbn. f_equal.
  rewrite <-list_fmap_compose. apply list_fmap_ext. intros _ [index row] _. cbn.
  f_equal. apply list_fmap_ext. intros i c Hc%list_elem_of_lookup_2. cbn.
  by rewrite get_filter_columns.
Qed.

Lemma validate_Ok chunks df :
  validate chunks = Ok df ↔
    ingest chunks = Ok df ∧ check_duplicates df = Ok df
    ∧ check_records df = Ok ∅ ∧ check_complexes ∅ df = Ok ().
Proof.
  unfold validate. split.
  - intros (df0 & Hdf & (df1 & Hdup & (bad_records & Hrec & (u & Hcom & [= <-])%bind_Ok)%bind_Ok)%bind_Ok)%bind_Ok.
    pose proof (check_records_Ok _ _ Hrec) as ->.
    assert (df1 = df0) as ->.
    { revert Hdup. unfold check_duplicates.
      destruct (get_duplicates _ _); [by intros [= ->] | done]. }
    by destruct u.
  - intros (-> & Hdup & Hrec & Hcom). cbn. rewrite Hdup. cbn.
    rewrite Hrec. cbn. by rewrite Hcom.
Qed.

Lemma validate_raw_export chunks df :
  validate chunks = Ok df →
  ∃ raw, select df required_columns = Ok raw ∧ to_csv "NA" raw = raw_export df.
Proof.
  intros (Hdf & _)%validate_Ok. apply select_to_csv.
  by apply ingest_Ok in Hdf as (_ & _ & _ & _ & _ & ?).
Qed.

Lemma fixed_row_cell r c :
  resolvable r.2.2 = true → get (fixed_row r).2.1 c = final_cell r c.
Proof.
  intros Hres. unfold fixed_row, fix_row, final_cell.
  rewrite Hres, bool_decide_true by done. cbn.
  case_bool_decide as Hcdr3.
  { subst. rewrite 2!get_set_cell_ne by done. apply get_set_cell. }
  case_bool_decide as Hv.
  { subst. rewrite get_set_cell_ne by done. apply get_set_cell. }
  case_bool_decide as Hj.
  { subst. apply get_set_cell. }
  by rewrite !get_set_cell_ne by done.
Qed.

Lemma apply_fixes_resolved fixed files :
  NoDup (fixed_rows fixed).*1 →
  Forall (λ r, resolvable r.2.2 = true) (fixed_rows fixed) →
  required_columns ⊆ fixed_columns fixed →
  apply_fixes fixed files = (<[final_file := final_export fixed]> files, Ok ()).
Proof.
  intros Hnd Hall Hcols. unfold apply_fixes.
  pose proof (fix_loop_unfixed fixed) as Hunfixed.
  pose proof (fix_loop_rows fixed Hnd) as Hrows.
  destruct (foldl_fix_step fixed [] (fixed_rows fixed)) as (_ & _ & Hname & Hkeep).
  fold (fix_loop fixed) in Hname, Hkeep.
  destruct (fix_loop fixed) as [df unfixed_cdr3]. cbn in *.
  assert (unfixed_cdr3 = []) as ->.
  { rewrite Hunfixed. apply unfixed_of_nil. by apply Forall_forall. }
  destruct (select_to_csv "NA" (frame_of df) required_columns) as (out & -> & ->).
  { intros c Hc. by apply Hkeep, Hcols. }
  do 2 f_equal. unfold final_export. cbn. rewrite Hname. f_equal.
  rewrite Hrows, <-!list_fmap_compose. apply list_fmap_ext.
  intros i r Hr%list_elem_of_lookup_2.
  unfold compose, final_line, prod_map. cbn [fst snd].
  rewrite Forall_forall in Hall. f_equal; [apply fix_row_index|].
  apply list_fmap_ext. intros _ c _. unfold compose. f_equal.
  apply fixed_row_cell. by apply Hall.
Qed.

Lemma bind_chunk_ids chunks : chunks ≫= chunk_ids = (chunks ≫= chunk_lines).*1.
Proof.
  induction chunks as [|chunk chunks IH]; [done|].
  by rewrite !bind_cons, fmap_app, IH.
Qed.

(** ** The whole run *)

(** C1, as stated, at two chunks with different record ids whose rows pass
    the record and the complex check: the run does not complete, whatever
    the fixer, because the two rows have the same content.  And where a run
    does complete, the line of the final export is not the row that came in:
    cdr3, v.segm and j.segm are the fixer's, and the empty antigen is
    written NA. *)
Lemma valid_disjoint_chunks_need_more :
  NoDup ([chunk_a; chunk_b] ≫= chunk_ids)
  ∧ ingest [chunk_a; chunk_b] = Ok (table [chunk_a; chunk_b])
  ∧ check_records (table [chunk_a; chunk_b]) = Ok ∅
  ∧ check_complexes ∅ (table [chunk_a; chunk_b]) = Ok ()
  ∧ (∀ fixer files,
       ∃ duplicates,
         build_db fixer [chunk_a; chunk_b] files
         = (files, Exit (DuplicateContent duplicates)))
  ∧ raw_export (table [chunk_a])
    = [index_column :: required_columns;
       "VDJDBR00000001"
       :: sample_fields "VDJDBC00000000" "CASSL" "TRB" "HomoSapiens" ""]
  ∧ build_db (sample_fixer (sample_fix "CASSLF" true true true)) [chunk_a] ∅
    = (<[final_file :=
           [index_column :: required_columns;
            ["VDJDBR00000001"; "VDJDBC00000000"; "CASSLF"; "TRBV1*01"; "TRBJ1*01";
             "TRB"; "HomoSapiens"; "HLA-A*02"; "B2M"; "MHCI"; "NA"; "gag";
             "HIV-1"; "tetramer-sort"; "PMID:1"; "1"]]]>
         (<[raw_file := raw_export (table [chunk_a])]> ∅),
       Ok ()).
Proof.
  split_and!.
  - apply (bool_decide_unpack _). by vm_compute.
  - vm_compute. reflexivity.
  - vm_compute. reflexivity.
  - vm_compute. reflexivity.
  - intros fixer files. unfold build_db.
    assert (validate [chunk_a; chunk_b]
            = Exit (DuplicateContent
                      [Some <$> sample_fields "VDJDBC00000000" "CASSL" "TRB"
                                  "HomoSapiens" ""])) as ->
      by (vm_compute; reflexivity).
    eauto.
  - vm_compute. reflexivity.
  - vm_compute. reflexivity.
Qed.

(** C1 (amended): when the chunks pass every check of the validation phases
    (schema, record ids all different, no repeated content, record and
    complex check), the fixer runs and returns a table with the same record
    ids, all required columns and only resolvable rows, the run completes,
    writes the raw export and then the final export; the final export has
    one line per line of the chunks, in their order and under their record
    ids, so that none is lost and none is doubled; and a line holds the
    required columns of the fixer's row, cdr3, v.segm and j.segm being the
    fixed ones. *)
Theorem valid_run_exports_every_record fixer chunks files df fixed :
  validate chunks = Ok df →
  fixer (raw_export df) = Some fixed →
  (fixed_rows fixed).*1 = (df_rows df).*1 →
  Forall (λ r, resolvable r.2.2 = true) (fixed_rows fixed) →
  required_columns ⊆ fixed_columns fixed →
  build_db fixer chunks files
  = (<[final_file := final_export fixed]> (<[raw_file := raw_export df]> files),
     Ok ())
  ∧ head <$> tail (final_export fixed) = Some <$> (chunks ≫= chunk_lines).*1
  ∧ length (tail (final_export fixed)) = length (chunks ≫= chunk_lines)
  ∧ NoDup (head <$> tail (final_export fixed)).
Proof.
  intros Hdf Hfixed Hids Hall Hcols.
  destruct (validate_raw_export _ _ Hdf) as (raw & Hraw & Hcsv).
  pose proof Hdf as (Hingest & _)%validate_Ok.
  apply ingest_Ok in Hingest as (_ & _ & Hdfids & Hnd & _).
  rewrite Hdfids in Hids.
  assert (head <$> tail (final_export fixed) = Some <$> chunks ≫= chunk_ids) as Hlines.
  { unfold final_export. cbn [tail]. rewrite <-Hids, <-!list_fmap_compose.
    by apply list_fmap_ext. }
  split_and!.
  - unfold build_db, reconcile. rewrite Hdf, Hraw, Hcsv, Hfixed.
    apply apply_fixes_resolved; [by rewrite Hids | done..].
  - by rewrite Hlines, bind_chunk_ids.
  - apply (f_equal length) in Hlines.
    by rewrite !length_fmap, bind_chunk_ids, length_fmap in Hlines.
  - rewrite Hlines. apply (NoDup_fmap_2 _), Hnd.
Qed.

Lemma valid_run_exports_every_record_witness :
  build_db (sample_fixer (sample_fix "CASSLF" true false false))
    [chunk_a; chunk_pair] ∅
  = (<[final_file :=
         final_export (fixed_of (sample_fix "CASSLF" true false false)
                         [chunk_a; chunk_pair])]>
       (<[raw_file := raw_export (table [chunk_a; chunk_pair])]> ∅),
     Ok ())
  ∧ length (tail (final_export (fixed_of (sample_fix "CASSLF" true false false)
                                  [chunk_a; chunk_pair])))
    = 3.
Proof.
  destruct (valid_run_exports_every_record
              (sample_fixer (sample_fix "CASSLF" true false false))
              [chunk_a; chunk_pair] ∅ (table [chunk_a; chunk_pair])
              (fixed_of (sample_fix "CASSLF" true false false)
                 [chunk_a; chunk_pair]))
    as (Hrun & _ & Hcount & _).
  - vm_compute. reflexivity.
  - vm_compute. reflexivity.
  - vm_compute. reflexivity.
  - apply (bool_decide_unpack _). by vm_compute.
  - apply (bool_decide_unpack _). by vm_compute.
  - split; [exact Hrun | exact Hcount].
Defined.

(** ** The patterns *)


Lemma append_assoc (s t u : string) : (s +:+ t) +:+ u = s +:+ (t +:+ u).
Proof.
  induction s as [|c s IH]; [done|].
  change (String c ((s +:+ t) +:+ u) = String c (s +:+ (t +:+ u))).
  by rewrite IH.
Qed.

Lemma at_end_spec s : Re.at_end s = true ↔ s = "" ∨ s = newline_text.
Proof.
  destruct s as [|c [|c' s]]; cbn.
  - by split; [left|].
  - rewrite Ascii.eqb_eq. unfold newline_text. split.
    + intros ->. by right.
    + by intros [[=]|[= ->]].
  - by split; [|intros [[=]|[=]]].
Qed.



Lemma match_here_Eol bol s :
  Re.match_here [Re.Eol] bol s = true ↔ s = "" ∨ s = newline_text.
Proof. cbn. by rewrite andb_true_r, at_end_spec. Qed.



Lemma plus_Eol_spec a s :
  Re.match_here [Re.Plus a; Re.Eol] false s = true
  ↔ ∃ body, body ≠ "" ∧ all_match a body = true
            ∧ (s = body ∨ s = body +:+ newline_text).
Proof.
  induction s as [|c s IH].
  { split; [done|]. by intros ([|??] & ? & _ & [?|?]). }
  change (Re.match_here [Re.Plus a; Re.Eol] false (String c s))
    with (Re.atom_matches a c
          && (Re.match_here [Re.Plus a; Re.Eol] false s
              || Re.match_here [Re.Eol] false s)).
  rewrite andb_true_iff, orb_true_iff, IH, match_here_Eol. split.
  - intros [Hc [(body & Hne & Hbody & Hs)|Hend]].
    + exists (String c body). cbn. rewrite Hc, Hbody.
      split_and!; [done..|]. destruct Hs as [->| ->]; [by left | by right].
    + exists (String c ""). cbn. rewrite Hc.
      split_and!; [done..|]. destruct Hend as [->| ->]; [by left | by right].
  - intros ([|c0 body] & Hne & Hbody & Hs); [done|].
    cbn in Hbody. apply andb_true_iff in Hbody as [Hc Hbody].
    assert (c0 = c ∧ (s = body ∨ s = body +:+ newline_text)) as [-> Hs'].
    { destruct Hs as [[= -> ->]|[= -> ->]]; (split; [done|]); [by left | by right]. }
    split; [done|]. destruct body as [|c1 body].
    + right. destruct Hs' as [->| ->]; [by left | by right].
    + left. by exists (String c1 body).
Qed.

(** X2: a text passes the amino-acid check exactly when it is a run of one
    or more of the twenty letters, or such a run followed by one newline. *)
Theorem aa_pattern_spec s :
  Re.re_match aa_pattern s = true
  ↔ ∃ body, body ≠ "" ∧ all_match amino_acid body = true
            ∧ (s = body ∨ s = body +:+ newline_text).
Proof.
  rewrite <-plus_Eol_spec. unfold Re.re_match, aa_pattern.
  destruct s as [|c s]; [done|].
  change (Re.match_here [Re.Bol; Re.Plus amino_acid; Re.Eol] true (String c s))
    with (true && (Re.atom_matches amino_acid c
                   && (Re.match_here [Re.Plus amino_acid; Re.Eol] false s
                       || Re.match_here [Re.Eol] false s))).
  done.
Qed.

(** ** More on the record check *)

Lemma message_nil (b : bool) (message : string) :
  (if b then [message] else []) = [] ↔ b = false.
Proof. by destruct b. Qed.







(** ** More on the merge *)


Lemma ingest_from_iff df chunks df' :
  NoDup (df_rows df).*1 →
  ingest_from df chunks = Ok df' ↔
    Forall schema_ok chunks
    ∧ NoDup ((df_rows df).*1 ++ chunks ≫= chunk_ids)
    ∧ df' = {| df_index_name := df_index_name df;
               df_columns := merged_columns (df_columns df) chunks;
               df_rows := df_rows df ++ chunks ≫= chunk_rows |}.
Proof.
  revert df. induction chunks as [|chunk chunks IH]; intros df Hnd.
  - cbn. rewrite !app_nil_r. destruct df as [name columns rows]. cbn.
    split; [by intros [= <-] | by intros (_ & _ & ->)].
  - cbn [ingest_from]. rewrite bind_Ok. setoid_rewrite ingest_chunk_Ok.
    setoid_rewrite append_Ok. rewrite Forall_cons, !bind_cons. split.
    + intros (df1 & (Hok & Hnd1 & ->) & Hrest).
      apply IH in Hrest as (Hoks & Hnd2 & ->);
        [|by cbn; rewrite fmap_app, chunk_rows_ids].
      cbn in *. rewrite fmap_app, chunk_rows_ids, <-app_assoc in Hnd2.
      by rewrite <-app_assoc.
    + intros ([Hok Hoks] & Hnd2 & ->).
      assert (NoDup ((df_rows df).*1 ++ chunk_ids chunk)) as Hnd1.
      { rewrite app_assoc in Hnd2. by apply NoDup_app in Hnd2 as [? _]. }
      eexists. split; [done|]. apply IH.
      * by cbn; rewrite fmap_app, chunk_rows_ids.
      * cbn. rewrite fmap_app, chunk_rows_ids, <-!app_assoc. done.
Qed.


(** ** More on the complex check *)

Lemma complex_step_sentinel bad_complexes group :
  complex_step bad_complexes ("VDJDBC00000000", group) = Ok bad_complexes.
Proof. done. Qed.

Lemma complex_step_two bad_complexes index r0 r1 rest :
  index ≠ "VDJDBC00000000" →
  complex_step bad_complexes (index, r0 :: r1 :: rest)
  = Ok (if bool_decide (complex_messages r0 r1 rest ≠ [])
        then <[index := complex_messages r0 r1 rest]> bad_complexes
        else bad_complexes).
Proof.
  intros Hindex. unfold complex_step, complex_messages, unmatched_cols.
  rewrite bool_decide_true by done. cbn [fmap list_fmap snd length].
  assert (bool_decide (S (S (length rest)) ≠ 2) = bool_decide (rest ≠ [])) as ->.
  { apply bool_decide_ext. destruct rest; cbn; split; (done || lia). }
  done.
Qed.

Lemma elem_of_groupby_iff column df index group :
  (index, group) ∈ groupby column df
  ↔ group = filter (λ r, get r.2 column = Some index) (df_rows df)
    ∧ ∃ r, r ∈ df_rows df ∧ get r.2 column = Some index.
Proof.
  unfold groupby. rewrite list_elem_of_fmap.
  setoid_rewrite merge_sort_Permutation.
  setoid_rewrite elem_of_remove_dups. setoid_rewrite list_elem_of_omap. split.
  - by intros (index' & [= -> ->] & Hkey).
  - intros (-> & Hkey). by exists index.
Qed.

Lemma groupby_NoDup column df : NoDup (groupby column df).*1.
Proof.
  unfold groupby. rewrite <-list_fmap_compose.
  rewrite (list_fmap_ext _ id _ (λ _ _ _, eq_refl)), list_fmap_id.
  rewrite merge_sort_Permutation. apply NoDup_remove_dups.
Qed.

Lemma groupby_nonempty column df g : g ∈ groupby column df → g.2 ≠ [].
Proof.
  destruct g as [index group]. intros (-> & r & Hr & Hindex)%elem_of_groupby_iff.
  cbn. intros Hnil.
  assert (r ∈ filter (λ r, get r.2 column = Some index) (df_rows df)) as Hin
    by (by apply list_elem_of_filter).
  rewrite Hnil in Hin. by apply elem_of_nil in Hin.
Qed.

(** The loop over groups that all have two rows or more, or the reserved
    id: it ends, with the messages of every group that has any. *)
Lemma complex_loop_Ok (acc : gmap string (list string)) groups :
  NoDup groups.*1 →
  (∀ g, g ∈ groups → acc !! g.1 = None) →
  (∀ g, g ∈ groups → g.1 ≠ "VDJDBC00000000" → 2 ≤ length g.2) →
  ∃ bad_complexes,
    complex_loop acc groups = Ok bad_complexes
    ∧ ∀ index messages,
        bad_complexes !! index = Some messages ↔
          (index ≠ "VDJDBC00000000" ∧ messages ≠ []
           ∧ ∃ r0 r1 rest, (index, r0 :: r1 :: rest) ∈ groups
                           ∧ messages = complex_messages r0 r1 rest)
          ∨ acc !! index = Some messages.
Proof.
  revert acc.
  induction groups as [|[index0 group0] groups IH]; intros acc Hnd Hfresh Hsize.
  - exists acc. split; [done|]. intros index messages. split; [by right|].
    by intros [(_ & _ & ? & ? & ? & []%elem_of_nil & _)|?].
  - cbn in Hnd. apply NoDup_cons in Hnd as [Hnew Hnd].
    assert (∀ acc', (∀ g, g ∈ groups → acc !! g.1 = None → acc' !! g.1 = None) →
            ∃ bad_complexes,
              complex_loop acc' groups = Ok bad_complexes
              ∧ ∀ index messages,
                  bad_complexes !! index = Some messages ↔
                    (index ≠ "VDJDBC00000000" ∧ messages ≠ []
                     ∧ ∃ r0 r1 rest, (index, r0 :: r1 :: rest) ∈ groups
                                     ∧ messages = complex_messages r0 r1 rest)
                    ∨ acc' !! index = Some messages) as IH'.
    { intros acc' Hacc'. apply IH; [done| |].
      - intros g Hg. apply Hacc'; [done|]. apply Hfresh. by right.
      - intros g Hg. apply Hsize. by right. }
    cbn [complex_loop].
    destruct (decide (index0 = "VDJDBC00000000")) as [->|Hindex0].
    { rewrite complex_step_sentinel. cbn.
      destruct (IH' acc) as (bad_complexes & -> & Hbad); [done|].
      exists bad_complexes. split; [done|]. intros index messages.
      rewrite Hbad. split.
      - intros [(? & ? & r0 & r1 & rest & Hin & ->)|?]; [left|by right].
        split_and!; [done..|]. exists r0, r1, rest. split; [by right|done].
      - intros [(Hindex & ? & r0 & r1 & rest & Hin & ->)|?]; [left|by right].
        split_and!; [done..|]. exists r0, r1, rest. split; [|done].
        apply elem_of_cons in Hin as [[= -> _]|?]; done. }
    specialize (Hsize (index0, group0) ltac:(by left) Hindex0).
    destruct group0 as [|r0 [|r1 rest]]; cbn in Hsize; [lia..|].
    rewrite complex_step_two by done. cbn.
    set (messages0 := complex_messages r0 r1 rest).
    destruct (IH' (if bool_decide (messages0 ≠ [])
                   then <[index0 := messages0]> acc else acc))
      as (bad_complexes & -> & Hbad).
    { intros g Hg Hnone. case_bool_decide; [|done].
      rewrite lookup_insert_ne; [done|]. intros ->.
      apply Hnew, list_elem_of_fmap. by exists g. }
    exists bad_complexes. split; [done|]. intros index messages.
    rewrite Hbad. clear Hbad IH IH'. split.
    + intros [(? & ? & r0' & r1' & rest' & Hin & ->)|Hacc].
      * left. split_and!; [done..|]. exists r0', r1', rest'. split; [by right|done].
      * case_bool_decide as Hne0; [|by right].
        destruct (decide (index0 = index)) as [->|Hother].
        -- rewrite lookup_insert_eq in Hacc. injection Hacc as <-.
           left. split_and!; [done..|]. exists r0, r1, rest. split; [by left|done].
        -- rewrite lookup_insert_ne in Hacc by done. by right.
    + intros [(Hindex & Hne & r0' & r1' & rest' & Hin & ->)|Hacc].
      * apply elem_of_cons in Hin as [[= -> -> -> ->]|Hin].
        -- right. fold messages0 in Hne |- *.
           rewrite bool_decide_true by done. apply lookup_insert_eq.
        -- left. split_and!; [done..|]. by exists r0', r1', rest'.
      * right. case_bool_decide; [|done].
        rewrite lookup_insert_ne; [done|]. intros ->.
        specialize (Hfresh (index, r0 :: r1 :: rest) ltac:(by left)).
        cbn in Hfresh. congruence.
Qed.

(** The loop ends in no other way than with a dictionary or IndexError, and
    in IndexError only over a group of fewer than two rows. *)
Lemma complex_loop_Raise acc groups :
  (∀ d, complex_loop acc groups ≠ Exit d)
  ∧ ∀ e, complex_loop acc groups = Raise e →
         e = IndexError
         ∧ ∃ g, g ∈ groups ∧ g.1 ≠ "VDJDBC00000000" ∧ length g.2 < 2.
Proof.
  revert acc. induction groups as [|[index group] groups IH]; intros acc; [done|].
  cbn [complex_loop].
  destruct (decide (index = "VDJDBC00000000")) as [->|Hindex].
  { rewrite complex_step_sentinel. cbn. destruct (IH acc) as [Hexit Hraise].
    split; [done|]. intros e (-> & g & ? & ?)%Hraise. split; [done|].
    exists g. split; [by right|done]. }
  destruct group as [|r0 [|r1 rest]].
  - assert (complex_step acc (index, []) = Raise IndexError) as ->
      by (unfold complex_step; by rewrite bool_decide_true).
    split; [done|]. intros e [= <-]. split; [done|].
    exists (index, []). split_and!; [by left|done|cbn; lia].
  - rewrite complex_step_single by done. split; [done|]. intros e [= <-].
    split; [done|]. exists (index, [r0]). split_and!; [by left|done|cbn; lia].
  - rewrite complex_step_two by done. cbn.
    destruct (IH (if bool_decide (complex_messages r0 r1 rest ≠ [])
                  then <[index := complex_messages r0 r1 rest]> acc else acc))
      as [Hexit Hraise].
    split; [done|]. intros e (-> & g & ? & ?)%Hraise. split; [done|].
    exists g. split; [by right|done].
Qed.

Lemma groupby_sizes df :
  (∀ index, index ≠ "VDJDBC00000000" → length (group_of df index) ≠ 1) →
  ∀ g, g ∈ groupby "complex.id" df → g.1 ≠ "VDJDBC00000000" → 2 ≤ length g.2.
Proof.
  intros Hsizes [index group] Hg Hindex.
  pose proof (groupby_nonempty _ _ _ Hg) as Hne.
  apply elem_of_groupby_iff in Hg as [-> _]. cbn in *.
  specialize (Hsizes index Hindex). unfold group_of in Hsizes.
  destruct (filter _ (df_rows df)) as [|? [|??]]; cbn in *; (done || lia).
Qed.

Lemma bad_complexes_of_Raise df :
  bad_complexes_of df = Raise IndexError
  ↔ ∃ index, index ≠ "VDJDBC00000000" ∧ length (group_of df index) = 1.
Proof.
  unfold bad_complexes_of.
  destruct (complex_loop_Raise ∅ (groupby "complex.id" df)) as [Hexit Hraise].
  split.
  - intros (_ & [index group] & Hg & Hindex & Hlen)%Hraise.
    pose proof (groupby_nonempty _ _ _ Hg) as Hne.
    apply elem_of_groupby_iff in Hg as [-> _]. cbn in *.
    exists index. split; [done|]. unfold group_of.
    destruct (filter _ (df_rows df)) as [|? [|??]]; cbn in *; (done || lia).
  - intros (index & Hindex & Hone). unfold group_of in Hone.
    destruct (filter _ (df_rows df)) as [|r [|r' group]] eqn:Hgroup; try done.
    assert (r ∈ filter (λ r, get r.2 "complex.id" = Some index) (df_rows df))
      as [Hr ?]%list_elem_of_filter by (rewrite Hgroup; by left).
    eapply complex_loop_raises.
    + apply (elem_of_groupby "complex.id" df index). eauto.
    + intros acc. rewrite Hgroup. by apply complex_step_single.
Qed.

Lemma bad_complexes_of_cases df :
  (∃ index, index ≠ "VDJDBC00000000" ∧ length (group_of df index) = 1)
  ∨ ∃ bad_complexes,
      bad_complexes_of df = Ok bad_complexes
      ∧ ∀ index messages,
          bad_complexes !! index = Some messages ↔
            index ≠ "VDJDBC00000000" ∧ messages ≠ []
            ∧ ∃ r0 r1 rest, group_of df index = r0 :: r1 :: rest
                            ∧ messages = complex_messages r0 r1 rest.
Proof.
  destruct (bad_complexes_of df) as [m|d|e] eqn:Hrun.
  2: { by destruct (proj1 (complex_loop_Raise ∅ (groupby "complex.id" df)) d). }
  2: { left. apply bad_complexes_of_Raise. rewrite Hrun. f_equal.
       by apply (proj2 (complex_loop_Raise ∅ (groupby "complex.id" df))). }
  right. unfold bad_complexes_of in Hrun.
  destruct (complex_loop_Ok ∅ (groupby "complex.id" df))
    as (bad_complexes & Hloop & Hbad).
  - apply groupby_NoDup.
  - intros g _. apply lookup_empty.
  - apply groupby_sizes. intros index Hindex Hone.
    assert (bad_complexes_of df = Raise IndexError) as Hcrash
      by (apply bad_complexes_of_Raise; eauto).
    unfold bad_complexes_of in Hcrash. congruence.
  - exists bad_complexes. split; [congruence|].
    intros index messages. rewrite Hbad, lookup_empty. split.
    + intros [(Hindex & Hne & r0 & r1 & rest & [Hgroup _]%elem_of_groupby_iff & ->)|?];
        [|done].
      split_and!; [done..|]. by exists r0, r1, rest.
    + intros (Hindex & Hne & r0 & r1 & rest & Hgroup & ->). left.
      split_and!; [done..|]. exists r0, r1, rest. split; [|done].
      apply elem_of_groupby_iff. split; [done|].
      assert (r0 ∈ group_of df index) as [? ?]%list_elem_of_filter
        by (rewrite Hgroup; by left).
      by exists r0.
Qed.

(** X6: the complex loop dies with IndexError exactly when some complex id
    other than the reserved one is on a single row, and ends in no other
    exception or exit.  When it ends, [bad_complexes] has an entry for
    exactly the complex ids, other than the reserved one, whose group has
    more than two rows or whose first two rows differ on a consistency
    column; the rows after the second are counted but never compared. *)
Theorem bad_complexes_spec df :
  (bad_complexes_of df = Raise IndexError
   ↔ ∃ index, index ≠ "VDJDBC00000000" ∧ length (group_of df index) = 1)
  ∧ (∀ e, bad_complexes_of df = Raise e → e = IndexError)
  ∧ (∀ d, bad_complexes_of df ≠ Exit d)
  ∧ (∀ bad_complexes,
       bad_complexes_of df = Ok bad_complexes →
       ∀ index messages,
         bad_complexes !! index = Some messages ↔
           index ≠ "VDJDBC00000000" ∧ messages ≠ []
           ∧ ∃ r0 r1 rest,
               group_of df index = r0 :: r1 :: rest
               ∧ messages
                 = (if bool_decide (rest ≠ [])
                    then ["Number of entries in complex should be 2"] else [])
                   ++ (if bool_decide (unmatched_cols r0.2 r1.2 ≠ [])
                       then ["The following columns are not matching within complex entries"
                             +:+ py_str (unmatched_cols r0.2 r1.2)]
                       else [])).
Proof.
  destruct (complex_loop_Raise ∅ (groupby "complex.id" df)) as [Hexit Hraise].
  split_and!.
  - apply bad_complexes_of_Raise.
  - by intros e [-> _]%Hraise.
  - apply Hexit.
  - intros bad_complexes Hok.
    destruct (bad_complexes_of_cases df) as [Hone|(bad_complexes' & Hok' & Hbad)].
    + apply bad_complexes_of_Raise in Hone. congruence.
    + rewrite Hok in Hok'. injection Hok' as <-. exact Hbad.
Qed.

Lemma bad_complexes_spec_witness :
  "VDJDBC00000002" ≠ "VDJDBC00000000"
  ∧ ∃ r0 r1 rest,
      group_of (table [chunk_a; chunk_mixed_pair]) "VDJDBC00000002"
      = r0 :: r1 :: rest.
Proof.
  destruct (bad_complexes_spec (table [chunk_a; chunk_mixed_pair]))
    as (_ & _ & _ & Hbad).
  assert (({[ "VDJDBC00000002" :=
                ["The following columns are not matching within complex entries['species']"] ]}
             : gmap string (list string)) !! "VDJDBC00000002"
          = Some ["The following columns are not matching within complex entries['species']"])
    as Hentry by apply lookup_singleton_eq.
  eapply Hbad in Hentry as (? & ? & r0 & r1 & rest & ? & _).
  - split; [done|]. by exists r0, r1, rest.
  - vm_compute. reflexivity.
Defined.

Lemma cell_ne_false x y :
  cell_ne x y = false ↔ ∃ text, x = Some text ∧ y = Some text.
Proof.
  destruct x as [a|], y as [b|]; cbn;
    try (split; [done | by intros (? & [=] & [=])]).
  rewrite negb_false_iff, bool_decide_eq_true. split.
  - intros ->. by exists b.
  - by intros (? & [= ->] & [= ->]).
Qed.

Lemma unmatched_cols_nil row0 row1 :
  unmatched_cols row0 row1 = []
  ↔ ∀ c, c ∈ complex_match_cols →
         ∃ text, get row0 c = Some text ∧ get row1 c = Some text.
Proof.
  unfold unmatched_cols. setoid_rewrite <-cell_ne_false. split.
  - intros Hnil c Hc.
    destruct (cell_ne (get row0 c) (get row1 c)) eqn:Hne; [|done].
    assert (c ∈ filter (λ c, cell_ne (get row0 c) (get row1 c)) complex_match_cols)
      as Hin by (apply list_elem_of_filter; by rewrite Hne).
    rewrite Hnil in Hin. by apply elem_of_nil in Hin.
  - intros Hall. destruct (filter _ complex_match_cols) as [|c l] eqn:E; [done|].
    assert (c ∈ filter (λ c, cell_ne (get row0 c) (get row1 c)) complex_match_cols)
      as [Hne Hc]%list_elem_of_filter by (rewrite E; by left).
    rewrite (Hall c Hc) in Hne. done.
Qed.

Lemma complex_messages_nil r0 r1 rest :
  complex_messages r0 r1 rest = [] ↔ rest = [] ∧ unmatched_cols r0.2 r1.2 = [].
Proof.
  unfold complex_messages. split.
  - intros [Hrest Hcols]%app_eq_nil.
    apply message_nil, bool_decide_eq_false in Hrest.
    apply message_nil, bool_decide_eq_false in Hcols.
    split.
    + destruct rest; [done | by destruct Hrest].
    + destruct (unmatched_cols r0.2 r1.2); [done | by destruct Hcols].
  - intros [-> ->]. done.
Qed.

Lemma check_complexes_Ok_iff bad_records df :
  check_complexes bad_records df = Ok ()
  ↔ ∀ index, index ≠ "VDJDBC00000000" → paired (group_of df index).
Proof.
  unfold check_complexes, paired.
  destruct (bad_complexes_of_cases df) as [Hone|(bad_complexes & Hok & Hbad)].
  - pose proof Hone as ->%bad_complexes_of_Raise. split; [done|].
    intros Hpairs. destruct Hone as (index & Hindex & Hone).
    destruct (Hpairs index Hindex) as [Hnil|(r0 & r1 & Hpair & _)];
      rewrite ?Hnil, ?Hpair in Hone; done.
  - rewrite Hok. cbn. split.
    + case_bool_decide as Hempty; [done|]. intros _ index Hindex.
      assert (bad_complexes = ∅) as -> by (by destruct (decide (bad_complexes = ∅))).
      destruct (group_of df index) as [|r0 [|r1 rest]] eqn:Hgroup; [by left| |].
      * assert (bad_complexes_of df = Raise IndexError) as Hcrash; [|congruence].
        apply bad_complexes_of_Raise. exists index. by rewrite Hgroup.
      * right. destruct (decide (complex_messages r0 r1 rest = [])) as [Hnil|Hsome].
        -- apply complex_messages_nil in Hnil as [-> Hcols].
           exists r0, r1. split; [done|]. by apply unmatched_cols_nil.
        -- assert ((∅ : gmap string (list string)) !! index
                   = Some (complex_messages r0 r1 rest)) as Hentry; [|done].
           apply Hbad. split_and!; [done..|]. by exists r0, r1, rest.
    + intros Hpairs. rewrite bool_decide_false; [done|]. intros Hne. apply Hne.
      apply map_eq. intros index. rewrite lookup_empty.
      destruct (bad_complexes !! index) as [messages|] eqn:Hentry; [|done].
      apply Hbad in Hentry as (Hindex & Hsome & r0 & r1 & rest & Hgroup & ->).
      destruct Hsome. apply complex_messages_nil.
      destruct (Hpairs index Hindex) as [Hnil|(r0' & r1' & Hpair & Hcols)];
        rewrite Hgroup in *; [done|].
      injection Hpair as -> -> ->. split; [done|]. by apply unmatched_cols_nil.
Qed.

(** X7: the complex check lets a table pass exactly when every complex id
    other than the reserved one is on exactly two rows, and these two have
    the same text in every consistency column (two NaN cells count as a
    difference).  Rows with the reserved id are free, in any number. *)
Theorem check_complexes_passes bad_records df :
  check_complexes bad_records df = Ok () ↔
    ∀ index, index ≠ "VDJDBC00000000" →
      group_of df index = []
      ∨ ∃ r0 r1,
          group_of df index = [r0; r1]
          ∧ ∀ c, c ∈ complex_match_cols →
                 ∃ text, get r0.2 c = Some text ∧ get r1.2 c = Some text.
Proof.
  rewrite check_complexes_Ok_iff. unfold paired. done.
Qed.

(** ** How the phases end *)


Lemma check_duplicates_cases df :
  check_duplicates df = Ok df
  ∨ ∃ duplicates, check_duplicates df = Exit (DuplicateContent duplicates).
Proof.
  unfold check_duplicates. destruct (get_duplicates _ _); [by left|right; eauto].
Qed.





(** ** The files *)

Lemma apply_fixes_cases fixed files :
  (∃ final, apply_fixes fixed files = (<[final_file := final]> files, Ok ()))
  ∨ (apply_fixes fixed files).1 = files ∧ (apply_fixes fixed files).2 ≠ Ok ().
Proof.
  unfold apply_fixes. destruct (fix_loop fixed) as [df [|u unfixed_cdr3]].
  - destruct (select _ _) as [out|d|e]; [left; eauto|by right..].
  - by right.
Qed.

(** X9: what a run does to the files.  It touches no path but those of the
    raw and the final export; it writes nothing at all unless the checks
    before the fix let the table pass; once they do, the raw export is the
    table's required columns; and the final file is written if and only if
    the run ends well. *)
Theorem build_db_files fixer chunks files :
  (∀ path, path ≠ raw_file → path ≠ final_file →
           (build_db fixer chunks files).1 !! path = files !! path)
  ∧ ((∀ df, validate chunks ≠ Ok df) → (build_db fixer chunks files).1 = files)
  ∧ (∀ df, validate chunks = Ok df →
           (build_db fixer chunks files).1 !! raw_file = Some (raw_export df))
  ∧ ((build_db fixer chunks files).2 ≠ Ok () →
     (build_db fixer chunks files).1 !! final_file = files !! final_file)
  ∧ ((build_db fixer chunks files).2 = Ok () →
     ∃ final, (build_db fixer chunks files).1 !! final_file = Some final).
Proof.
  unfold build_db.
  destruct (validate chunks) as [df|d|e] eqn:Hdf; cbn;
    [|by split_and!..].
  destruct (validate_raw_export chunks df Hdf) as (raw & Hraw & Hcsv).
  unfold reconcile. rewrite Hraw, Hcsv.
  assert (raw_file ≠ final_file) as Hpaths by done.
  destruct (fixer (raw_export df)) as [fixed|]; cbn.
  - destruct (apply_fixes_cases fixed (<[raw_file := raw_export df]> files))
      as [[final ->]|[Hfiles Hfail]]; cbn.
    + split_and!.
      * intros path ??. by rewrite !lookup_insert_ne.
      * intros Hnot. by destruct (Hnot df).
      * intros df' [= <-]. rewrite lookup_insert_ne by done. apply lookup_insert_eq.
      * done.
      * intros _. exists final. apply lookup_insert_eq.
    + rewrite Hfiles. split_and!.
      * intros path ??. by rewrite lookup_insert_ne.
      * intros Hnot. by destruct (Hnot df).
      * intros df' [= <-]. apply lookup_insert_eq.
      * intros _. by rewrite lookup_insert_ne.
      * done.
  - split_and!.
    + intros path ??. by rewrite lookup_insert_ne.
    + intros Hnot. by destruct (Hnot df).
    + intros df' [= <-]. apply lookup_insert_eq.
    + intros _. by rewrite lookup_insert_ne.
    + done.
Qed.

Lemma build_db_files_witness :
  (build_db (sample_fixer (sample_fix "CASSLF" true true true))
     [chunk_a; chunk_b] ∅).1 = ∅
  ∧ (build_db (sample_fixer (sample_fix "CASSLF" true true true))
       [chunk_a; chunk_pair] ∅).1 !! raw_file
    = Some (raw_export (table [chunk_a; chunk_pair])).
Proof.
  split.
  - apply (build_db_files _ [chunk_a; chunk_b] ∅).
    intros df. vm_compute. discriminate.
  - apply (build_db_files _ [chunk_a; chunk_pair] ∅).
    vm_compute. reflexivity.
Defined.

(** X10: when the checks pass and the fixer process fails, the run dies with
    CalledProcessError after the raw export has been written; the final file
    is not. *)
Theorem fixer_failure_leaves_raw_export fixer chunks files df :
  validate chunks = Ok df →
  fixer (raw_export df) = None →
  build_db fixer chunks files
  = (<[raw_file := raw_export df]> files, Raise CalledProcessError).
Proof.
  intros Hdf Hfixer. unfold build_db, reconcile. rewrite Hdf.
  destruct (validate_raw_export chunks df Hdf) as (raw & -> & ->).
  by rewrite Hfixer.
Qed.

Lemma fixer_failure_leaves_raw_export_witness :
  build_db failing_fixer [chunk_a; chunk_pair] ∅
  = (<[raw_file := raw_export (table [chunk_a; chunk_pair])]> ∅,
     Raise CalledProcessError).
Proof.
  apply fixer_failure_leaves_raw_export.
  - vm_compute. reflexivity.
  - reflexivity.
Defined.

(** ** Export and reload *)






(** ** More on the fix loop *)

Lemma foldl_fix_row_index rows r :
  (foldl (λ r x, fix_row x r) r rows).1 = r.1
  ∧ (foldl (λ r x, fix_row x r) r rows).2.2 = r.2.2.
Proof.
  revert r. induction rows as [|x rows IH]; intros r; [done|]. cbn.
  destruct (IH (fix_row x r)) as [-> ->].
  by rewrite fix_row_index, fix_row_fix.
Qed.

Lemma fix_row_cell_other x r c :
  c ∉ ["cdr3"; "v.segm"; "j.segm"] →
  get (fix_row x r).2.1 c = get r.2.1 c.
Proof.
  intros Hc. unfold fix_row. destruct (_ && _); [|done]. cbn.
  rewrite !get_set_cell_ne; [done|..]; intros <-; apply Hc; set_unfold; tauto.
Qed.

Lemma foldl_fix_row_cell_other rows r c :
  c ∉ ["cdr3"; "v.segm"; "j.segm"] →
  get (foldl (λ r x, fix_row x r) r rows).2.1 c = get r.2.1 c.
Proof.
  intros Hc. revert r. induction rows as [|x rows IH]; intros r; [done|]. cbn.
  by rewrite IH, fix_row_cell_other.
Qed.

Lemma foldl_fix_row_unresolved rows r :
  (∀ x, x ∈ rows → x.1 = r.1 → resolvable x.2.2 = false) →
  foldl (λ r x, fix_row x r) r rows = r.
Proof.
  revert r. induction rows as [|x rows IH]; intros r Hrows; [done|]. cbn.
  assert (fix_row x r = r) as ->.
  { unfold fix_row. destruct (decide (r.1 = x.1)) as [Heq|Hne].
    - by rewrite (Hrows x) by (by left || done).
    - rewrite bool_decide_false by done. by rewrite andb_false_r. }
  apply IH. intros y Hy. apply Hrows. by right.
Qed.

(** X13: what the fix loop keeps, whatever the table the fixer returned
    (record ids may even repeat).  The rows stay in place, with their record
    ids and the fixer's columns; no column other than cdr3, v.segm and
    j.segm changes; a row is left entirely as it was when no resolvable row
    carries its record id; the index name stays; and the unresolved list
    holds the unresolved rows in the order of the table. *)
Theorem fix_loop_keeps fixed :
  (λ r, (r.1, r.2.2)) <$> fixed_rows (fix_loop fixed).1
  = (λ r, (r.1, r.2.2)) <$> fixed_rows fixed
  ∧ (∀ i r r' c,
       fixed_rows fixed !! i = Some r →
       fixed_rows (fix_loop fixed).1 !! i = Some r' →
       c ∉ ["cdr3"; "v.segm"; "j.segm"] →
       get r'.2.1 c = get r.2.1 c)
  ∧ (∀ i r,
       fixed_rows fixed !! i = Some r →
       (∀ x, x ∈ fixed_rows fixed → x.1 = r.1 → resolvable x.2.2 = false) →
       fixed_rows (fix_loop fixed).1 !! i = Some r)
  ∧ fixed_index_name (fix_loop fixed).1 = fixed_index_name fixed
  ∧ (fix_loop fixed).2
    = (λ r, unfixed_entry r.1 r.2.2)
        <$> filter (λ r, resolvable r.2.2 = false) (fixed_rows fixed).
Proof.
  unfold fix_loop.
  destruct (foldl_fix_step fixed [] (fixed_rows fixed))
    as (Hrows & Hunfixed & Hname & _).
  rewrite Hrows. split_and!.
  - rewrite <-list_fmap_compose. apply list_fmap_ext. intros _ r _. cbn.
    by destruct (foldl_fix_row_index (fixed_rows fixed) r) as [-> ->].
  - intros i r r' c Hr. rewrite list_lookup_fmap, Hr. intros [= <-] Hc.
    by apply foldl_fix_row_cell_other.
  - intros i r Hr Hunresolved. rewrite list_lookup_fmap, Hr. cbn.
    by rewrite foldl_fix_row_unresolved.
  - done.
  - done.
Qed.

Lemma fix_loop_keeps_witness :
  fixed_rows (fix_loop fixed_sample).1 !! 1
  = Some ("VDJDBR00000002",
          (sample_row "VDJDBC00000000" "CASSY" "TRB" "HomoSapiens" "",
           sample_fix "CASSYF" false false true)).
Proof.
  apply (fix_loop_keeps fixed_sample).
  - reflexivity.
  - intros x Hx Heq. unfold fixed_sample in Hx. cbn [fixed_rows] in Hx.
    apply elem_of_cons in Hx as [->|Hx]; [cbn in Heq; discriminate Heq|].
    apply elem_of_cons in Hx as [->|Hx]; [reflexivity|].
    by apply elem_of_nil in Hx.
Defined.

(** ** What validation accepts *)

Lemma check_duplicates_Ok_iff df df' :
  check_duplicates df = Ok df'
  ↔ NoDup (content <$> (df_rows df).*2) ∧ df' = df.
Proof.
  unfold check_duplicates. rewrite <-(get_duplicates_nil tuple_le).
  destruct (get_duplicates _ _); split; try done.
  - by intros [= ->].
  - by intros [_ ->].
  - by intros [[=] _].
Qed.

Lemma record_loop_clean bad_records rows :
  (∀ r, r ∈ rows → check_record r.1 r.2 = Ok []) →
  record_loop bad_records rows = Ok bad_records.
Proof.
  revert bad_records. induction rows as [|r rows IH]; intros acc Hclean; [done|].
  cbn. unfold record_step. rewrite (Hclean r) by (by left). cbn.
  apply IH. intros r' Hr'. apply Hclean. by right.
Qed.

Lemma record_loop_grows bad_records rows m :
  record_loop bad_records rows = Ok m →
  (∀ k, is_Some (bad_records !! k) → is_Some (m !! k))
  ∧ ∀ r, r ∈ rows →
         ∃ messages, check_record r.1 r.2 = Ok messages
                     ∧ (messages ≠ [] → is_Some (m !! r.1)).
Proof.
  revert bad_records. induction rows as [|r rows IH]; intros acc.
  - intros [= <-]. split; [done|]. by intros r ?%elem_of_nil.
  - cbn. unfold record_step.
    destruct (check_record r.1 r.2) as [messages| |] eqn:Hm; cbn; [|done..].
    intros [Hkeep Hrows]%IH. split.
    + intros k Hk. apply Hkeep. case_bool_decide; [|done].
      destruct (decide (r.1 = k)) as [->|].
      * rewrite lookup_insert_eq. eauto.
      * by rewrite lookup_insert_ne.
    + intros r' [->|Hr']%elem_of_cons; [|by apply Hrows].
      exists messages. split; [done|]. intros Hne. apply Hkeep.
      rewrite bool_decide_true by done. rewrite lookup_insert_eq. eauto.
Qed.

Lemma check_records_pass df bad_records :
  check_records df = Ok bad_records
  ↔ (∀ r, r ∈ df_rows df → check_record r.1 r.2 = Ok []) ∧ bad_records = ∅.
Proof.
  split.
  - intros Hok. pose proof (check_records_Ok _ _ Hok) as ->. split; [|done].
    revert Hok. unfold check_records.
    destruct (record_loop ∅ (df_rows df)) as [m| |] eqn:Hloop; cbn; [|done..].
    case_bool_decide; [done|]. intros [= ->].
    apply record_loop_grows in Hloop as [_ Hrows].
    intros r Hr. destruct (Hrows r Hr) as (messages & -> & Hsome).
    destruct messages as [|message messages]; [done|].
    destruct Hsome as [? Hentry]; [done|]. by rewrite lookup_empty in Hentry.
  - intros [Hclean ->]. unfold check_records.
    rewrite (record_loop_clean ∅ _ Hclean). cbn.
    by rewrite bool_decide_false by (by intros []).
Qed.

Lemma validate_Ok_rows chunks df :
  validate chunks = Ok df ↔
    Forall schema_ok chunks
    ∧ NoDup (chunks ≫= chunk_ids)
    ∧ clean_rows (chunks ≫= chunk_rows)
    ∧ df = {| df_index_name := index_column;
              df_columns := merged_columns required_columns chunks;
              df_rows := chunks ≫= chunk_rows |}.
Proof.
  rewrite validate_Ok. unfold ingest, clean_rows.
  rewrite ingest_from_iff by constructor.
  rewrite check_duplicates_Ok_iff, check_records_pass, check_complexes_Ok_iff.
  unfold group_of. split.
  - intros ((Hoks & Hnd & ->) & [Hdup _] & [Hrec _] & Hcom). cbn in *. done.
  - intros (Hoks & Hnd & (Hdup & Hrec & Hcom) & ->). cbn. done.
Qed.

Lemma paired_Permutation group group' :
  group ≡ₚ group' → paired group → paired group'.
Proof.
  intros Hperm [->|(r0 & r1 & -> & Hcols)].
  - left. by apply Permutation_nil_l in Hperm.
  - right. apply Permutation_length_2_inv in Hperm as [->| ->].
    + by exists r0, r1.
    + exists r1, r0. split; [done|]. intros c Hc.
      destruct (Hcols c Hc) as (text & ? & ?). by exists text.
Qed.

Lemma clean_rows_Permutation rows rows' :
  rows ≡ₚ rows' → clean_rows rows → clean_rows rows'.
Proof.
  intros Hperm (Hdup & Hrec & Hcom). split_and!.
  - by rewrite <-Hperm.
  - intros r Hr. apply Hrec. by rewrite Hperm.
  - intros index Hindex. eapply paired_Permutation; [|by apply Hcom].
    by rewrite Hperm.
Qed.

Lemma validate_Permutation chunks chunks' df :
  chunks ≡ₚ chunks' → validate chunks = Ok df →
  ∃ df', validate chunks' = Ok df' ∧ df_rows df' ≡ₚ df_rows df.
Proof.
  intros Hperm (Hoks & Hnd & Hclean & ->)%validate_Ok_rows.
  eexists. split.
  - apply validate_Ok_rows. split_and!; [| | |done].
    + by rewrite <-Hperm.
    + by rewrite <-Hperm.
    + eapply clean_rows_Permutation; [|done]. by rewrite Hperm.
  - cbn. by rewrite Hperm.
Qed.

(** X14: the checks before the fix let a set of chunks pass exactly when the
    merge succeeds and, in the merged table, no two rows agree on every
    required column, every row leaves the record check without a message,
    and every complex id other than the reserved one is on no row or on two
    rows with the same text in every consistency column.  The table handed
    on is the merged one, unchanged. *)
Theorem validate_iff chunks df :
  validate chunks = Ok df ↔
    ingest chunks = Ok df
    ∧ ¬ repeated_content df
    ∧ (∀ r, r ∈ df_rows df → check_record r.1 r.2 = Ok [])
    ∧ ∀ index, index ≠ "VDJDBC00000000" →
        group_of df index = []
        ∨ ∃ r0 r1,
            group_of df index = [r0; r1]
            ∧ ∀ c, c ∈ complex_match_cols →
                   ∃ text, get r0.2 c = Some text ∧ get r1.2 c = Some text.
Proof.
  rewrite validate_Ok, check_duplicates_Ok_iff, check_records_pass,
    check_complexes_Ok_iff, repeated_content_NoDup.
  unfold paired. split.
  - intros (? & [? _] & [? _] & ?). split_and!; [done| |done..].
    by intros Hdup; apply Hdup.
  - intros (? & Hdup & ? & ?). split_and!; try done.
    by destruct (decide (NoDup (content <$> (df_rows df).*2))).
Qed.

(** X15: the verdict of the checks before the fix does not depend on the
    order in which the chunk files are processed: a set of chunks passes in
    one order if and only if it passes in any other, and the tables handed
    on hold the same rows. *)
Theorem validate_order chunks chunks' :
  chunks' ≡ₚ chunks →
  succeeded (validate chunks') = succeeded (validate chunks)
  ∧ ∀ df df', validate chunks = Ok df → validate chunks' = Ok df' →
              df_rows df' ≡ₚ df_rows df.
Proof.
  intros Hperm. split.
  - destruct (validate chunks) as [df| |] eqn:Hdf.
    + destruct (validate_Permutation chunks chunks' df) as (df' & -> & _); done.
    + destruct (validate chunks') as [df'| |] eqn:Hdf'; [|done..].
      destruct (validate_Permutation chunks' chunks df') as (? & ? & _);
        [done..|congruence].
    + destruct (validate chunks') as [df'| |] eqn:Hdf'; [|done..].
      destruct (validate_Permutation chunks' chunks df') as (? & ? & _);
        [done..|congruence].
  - intros df df' Hdf Hdf'.
    destruct (validate_Permutation chunks chunks' df) as (df'' & Hdf'' & ?);
      [done..|]. congruence.
Qed.

Lemma validate_order_witness :
  succeeded (validate [chunk_pair; chunk_a]) = succeeded (validate [chunk_a; chunk_pair]).
Proof.
  apply (validate_order [chunk_a; chunk_pair] [chunk_pair; chunk_a]).
  apply Permutation_swap.
Defined.

(** ** Reports and the order of the chunks *)

Lemma record_loop_Permutation rows rows' m :
  NoDup rows.*1 → rows ≡ₚ rows' →
  record_loop ∅ rows = Ok m → record_loop ∅ rows' = Ok m.
Proof.
  intros Hnd Hperm Hloop.
  assert (∀ r, r ∈ rows → ∃ messages, check_record r.1 r.2 = Ok messages) as Htotal.
  { intros r Hr. apply record_loop_grows in Hloop as [_ Hrows].
    destruct (Hrows r Hr) as (messages & ? & _). eauto. }
  destruct (record_loop_Ok ∅ rows) as (m1 & Hloop1 & Hm1); [done..|].
  destruct (record_loop_Ok ∅ rows') as (m2 & Hloop2 & Hm2).
  - by rewrite <-Hperm.
  - done.
  - intros r Hr. apply Htotal. by rewrite Hperm.
  - rewrite Hloop2. f_equal. rewrite Hloop in Hloop1. injection Hloop1 as <-.
    apply map_eq. intros index. apply option_eq. intros messages.
    rewrite Hm1, Hm2. by setoid_rewrite Hperm.
Qed.

Lemma validate_Exit_InvalidRecord chunks bad_records :
  validate chunks = Exit (InvalidRecord bad_records) ↔
    ∃ df, ingest chunks = Ok df ∧ check_duplicates df = Ok df
          ∧ check_records df = Exit (InvalidRecord bad_records).
Proof.
  unfold validate. split.
  - destruct (ingest chunks) as [df|d|e] eqn:Hdf;
      cbn [mbind result_bind bind]; [| |done].
    2: { intros [= ->].
         by apply ingest_from_Exit in Hdf as [(? & ? & [=])|(? & [=])]. }
    destruct (check_duplicates_cases df) as [Hdup|[duplicates Hdup]];
      rewrite Hdup; cbn [mbind result_bind bind]; [|done].
    destruct (check_records df) as [m|d|e] eqn:Hrec;
      cbn [mbind result_bind bind]; [| |done].
    + destruct (check_complexes m df) as [[]|d|e] eqn:Hcom;
        cbn [mbind result_bind bind]; [done| |done].
      by apply check_complexes_Exit in Hcom as ->.
    + intros [= ->]. by exists df.
  - intros (df & -> & Hdup & Hrec). cbn [mbind result_bind bind].
    rewrite Hdup. cbn [mbind result_bind bind]. by rewrite Hrec.
Qed.

Lemma check_records_Exit_iff df bad_records :
  check_records df = Exit (InvalidRecord bad_records)
  ↔ record_loop ∅ (df_rows df) = Ok bad_records ∧ bad_records ≠ ∅.
Proof.
  unfold check_records.
  destruct (record_loop ∅ (df_rows df)) as [m|d|e] eqn:Hloop;
    cbn [mbind result_bind bind].
  - case_bool_decide; split.
    + by intros [= <-].
    + by intros [[= ->] _].
    + done.
    + by intros [[= ->] ?].
  - by destruct (record_loop_not_Exit _ _ _ Hloop).
  - split; [done | by intros [[=] _]].
Qed.

(** X16: the report of bad records does not depend on the order in which
    the chunk files are processed: if the run fails in the record check with
    a dictionary of bad records, it fails there with the same dictionary in
    any other order of the chunks. *)
Theorem invalid_record_order chunks chunks' bad_records :
  chunks' ≡ₚ chunks →
  validate chunks = Exit (InvalidRecord bad_records) →
  validate chunks' = Exit (InvalidRecord bad_records).
Proof.
  intros Hperm (df & Hdf & Hdup & Hrec)%validate_Exit_InvalidRecord.
  apply validate_Exit_InvalidRecord.
  unfold ingest in Hdf. apply ingest_from_iff in Hdf as (Hoks & Hnd & ->);
    [|constructor].
  apply check_duplicates_Ok_iff in Hdup as [Hnodup _].
  apply check_records_Exit_iff in Hrec as [Hloop Hne].
  cbn in Hnd, Hnodup, Hloop.
  exists {| df_index_name := index_column;
            df_columns := merged_columns required_columns chunks';
            df_rows := chunks' ≫= chunk_rows |}.
  split_and!.
  - apply ingest_from_iff; [constructor|]. cbn.
    split_and!; [by rewrite Hperm | by rewrite Hperm | done].
  - apply check_duplicates_Ok_iff. split; [|done]. cbn. by rewrite Hperm.
  - apply check_records_Exit_iff. split; [|done]. cbn.
    apply (record_loop_Permutation (chunks ≫= chunk_rows)); [|by rewrite Hperm|done].
    clear -Hnd. induction chunks as [|chunk chunks IH]; [constructor|].
    rewrite bind_cons, fmap_app, chunk_rows_ids.
    rewrite bind_cons in Hnd. apply NoDup_app in Hnd as (? & Hdisj & ?).
    apply NoDup_app. split_and!; [done| |by apply IH].
    intros k Hk Hin. apply (Hdisj k Hk).
    apply list_elem_of_fmap in Hin as (r & -> & (chunk' & Hr & ?)%list_elem_of_bind).
    apply list_elem_of_bind. exists chunk'. split; [|done].
    rewrite <-chunk_rows_ids. by apply list_elem_of_fmap_2.
Qed.

Lemma invalid_record_order_witness :
  ∃ bad_records,
    validate [chunk_bad_cdr3; chunk_a] = Exit (InvalidRecord bad_records)
    ∧ bad_records !! "VDJDBR00000004"
      = Some ["Bad CDR3 sequence"; "Bad antigen sequence"].
Proof.
  exists {[ "VDJDBR00000004" := ["Bad CDR3 sequence"; "Bad antigen sequence"] ]}.
  split; [|apply lookup_singleton_eq].
  apply (invalid_record_order [chunk_a; chunk_bad_cdr3]).
  - apply Permutation_swap.
  - vm_compute. reflexivity.
Defined.

(** ** Where the merge stops *)

Lemma get_duplicates_NoDup {K} `{EqDecision K} (R : relation K) `{!RelDecision R}
    (values : list K) :
  NoDup (get_duplicates R values).
Proof.
  unfold get_duplicates. rewrite merge_sort_Permutation.
  apply NoDup_filter, NoDup_remove_dups.
Qed.

(** X17: the merge stops at the first chunk that brings in a record id
    already in the table or twice in itself.  The run dies there with the
    ValueError for overlapping index values, which lists, each once, exactly
    the record ids that occur more than once among the rows merged so far and
    those of that chunk; the chunks after it are not looked at. *)
Theorem merge_stops_at_overlap chunks chunk rest df :
  ingest chunks = Ok df →
  schema_ok chunk →
  ¬ NoDup ((df_rows df).*1 ++ chunk_ids chunk) →
  ∃ overlap,
    ingest (chunks ++ chunk :: rest) = Raise (ValueError overlap)
    ∧ overlap ≠ []
    ∧ NoDup overlap
    ∧ ∀ k, k ∈ overlap
           ↔ 1 < occurrences k ((df_rows df).*1 ++ chunk_ids chunk).
Proof.
  intros Hdf Hok Hdup.
  exists (get_duplicates String.le ((df_rows df).*1 ++ chunk_ids chunk)).
  assert (get_duplicates String.le ((df_rows df).*1 ++ chunk_ids chunk) ≠ [])
    as Hne by (by rewrite get_duplicates_nil).
  split_and!.
  - rewrite (ingest_reaches _ _ _ _ Hdf), ingest_chunk_schema_ok by done.
    unfold append. rewrite fmap_app, chunk_rows_ids.
    by destruct (get_duplicates _ _).
  - done.
  - apply get_duplicates_NoDup.
  - intros k. apply elem_of_get_duplicates.
Qed.

Lemma merge_stops_at_overlap_witness :
  ∃ overlap,
    ingest ([chunk_a; chunk_b] ++ chunk_a_again :: [chunk_foo])
    = Raise (ValueError overlap)
    ∧ overlap ≠ [].
Proof.
  destruct (merge_stops_at_overlap [chunk_a; chunk_b] chunk_a_again [chunk_foo]
              (table [chunk_a; chunk_b]))
    as (overlap & Hrun & Hne & _).
  - vm_compute. reflexivity.
  - by split.
  - intros Hnd. apply (bool_decide_pack _) in Hnd. by vm_compute in Hnd.
  - by exists overlap.
Defined.

(** ** The final export and missing columns *)

Lemma loc_set_columns df index column value c :
  c ∈ fixed_columns (loc_set df index column value) →
  c ∈ fixed_columns df ∨ c = column.
Proof.
  unfold loc_set. cbn. case_bool_decide; [by left|].
  intros [?|?%list_elem_of_singleton]%elem_of_app; [by left | by right].
Qed.

Lemma fix_step_columns df unfixed_cdr3 x c :
  c ∈ fixed_columns (fix_step (df, unfixed_cdr3) x).1 →
  c ∈ fixed_columns df ∨ c ∈ ["cdr3"; "v.segm"; "j.segm"].
Proof.
  destruct x as [index [row f]]. unfold fix_step.
  destruct (negb _); cbn [fst]; [by left|].
  intros [[[?| ->]%loc_set_columns| ->]%loc_set_columns| ->]%loc_set_columns;
    [by left|right..]; set_unfold; tauto.
Qed.

Lemma foldl_fix_step_columns df unfixed_cdr3 rows c :
  c ∈ fixed_columns (foldl fix_step (df, unfixed_cdr3) rows).1 →
  c ∈ fixed_columns df ∨ c ∈ ["cdr3"; "v.segm"; "j.segm"].
Proof.
  revert df unfixed_cdr3. induction rows as [|x rows IH]; intros df u; [by left|].
  cbn [foldl]. destruct (fix_step (df, u) x) as [df' u'] eqn:Hstep.
  intros [Hc|?]%IH; [|by right].
  apply (fix_step_columns df u x). by rewrite Hstep.
Qed.

(** X18: when every row of the table read back from the fixer is resolvable
    but the table lacks a required column other than the three the loop
    writes, the run dies with KeyError at [df[required_columns]], for a
    required column the table lacks, and the final file is not written. *)
Theorem final_export_KeyError fixed files c :
  Forall (λ r, resolvable r.2.2 = true) (fixed_rows fixed) →
  c ∈ required_columns →
  c ∉ ["cdr3"; "v.segm"; "j.segm"] →
  c ∉ fixed_columns fixed →
  ∃ c', apply_fixes fixed files = (files, Raise (KeyError c'))
        ∧ c' ∈ required_columns ∧ c' ∉ fixed_columns fixed.
Proof.
  intros Hall Hc Hthree Hmissing. unfold apply_fixes.
  pose proof (fix_loop_unfixed fixed) as Hunfixed.
  pose proof (foldl_fix_step_columns fixed [] (fixed_rows fixed)) as Hcols.
  destruct (foldl_fix_step fixed [] (fixed_rows fixed)) as (_ & _ & _ & Hkeep).
  fold (fix_loop fixed) in Hcols, Hkeep.
  destruct (fix_loop fixed) as [df unfixed_cdr3]. cbn in *.
  assert (unfixed_cdr3 = []) as ->.
  { rewrite Hunfixed. apply unfixed_of_nil. by apply Forall_forall. }
  unfold select. cbn [df_columns frame_of].
  destruct (filter (λ c, c ∉ fixed_columns df) required_columns) as [|c' l] eqn:E.
  - assert (c ∈ filter (λ c, c ∉ fixed_columns df) required_columns) as Hin.
    { apply list_elem_of_filter. split; [|done].
      intros [?|?]%Hcols; done. }
    rewrite E in Hin. by apply elem_of_nil in Hin.
  - exists c'.
    assert (c' ∈ filter (λ c, c ∉ fixed_columns df) required_columns)
      as [Hnot ?]%list_elem_of_filter by (rewrite E; by left).
    split_and!; [done..|]. intros Hin. by apply Hnot, Hkeep.
Qed.

Lemma final_export_KeyError_witness :
  ∃ c', apply_fixes
          {| fixed_index_name := "record.id";
             fixed_columns := ["complex.id"; "cdr3"; "v.segm"; "j.segm"];
             fixed_rows := fixed_rows (fixed_of (sample_fix "CASSLF" true true true)
                                         [chunk_a]) |} ∅
        = (∅, Raise (KeyError c'))
        ∧ c' ∈ required_columns.
Proof.
  destruct (final_export_KeyError
              {| fixed_index_name := "record.id";
                 fixed_columns := ["complex.id"; "cdr3"; "v.segm"; "j.segm"];
                 fixed_rows := fixed_rows (fixed_of (sample_fix "CASSLF" true true true)
                                             [chunk_a]) |} ∅ "gene")
    as (c' & Hrun & Hc' & _).
  - apply (bool_decide_unpack _). by vm_compute.
  - apply (bool_decide_unpack _). by vm_compute.
  - apply (bool_decide_unpack _). by vm_compute.
  - apply (bool_decide_unpack _). by vm_compute.
  - by exists c'.
Defined.

(** ** Runs that end well *)

Lemma select_Ok_iff df columns :
  (∃ out, select df columns = Ok out) ↔ columns ⊆ df_columns df.
Proof.
  split.
  - intros [out Hout] c Hc. revert Hout. unfold select.
    destruct (filter (λ c, c ∉ df_columns df) columns) as [|c' l] eqn:E; [|done].
    intros _. destruct (decide (c ∈ df_columns df)) as [|Hnot]; [done|].
    assert (c ∈ filter (λ c, c ∉ df_columns df) columns) as Hin
      by (by apply list_elem_of_filter).
    rewrite E in Hin. by apply elem_of_nil in Hin.
  - intros Hsub. destruct (select_to_csv "NA" df columns Hsub) as (out & ? & _).
    by exists out.
Qed.

Lemma select_cases df columns :
  (∃ out, select df columns = Ok out) ∨ (∃ c, select df columns = Raise (KeyError c)).
Proof.
  unfold select. destruct (filter _ columns); [left|right]; eauto.
Qed.

Lemma loc_set_has_column df index column value :
  column ∈ fixed_columns (loc_set df index column value).
Proof.
  unfold loc_set. cbn. case_bool_decide; [done|].
  apply elem_of_app. right. by left.
Qed.

Lemma loc_set_keeps_column df index column value c :
  c ∈ fixed_columns df → c ∈ fixed_columns (loc_set df index column value).
Proof.
  intros Hc. unfold loc_set. cbn. case_bool_decide; [done|].
  apply elem_of_app. by left.
Qed.

(** The columns of the frame after the fix loop: those it had, and the
    three the loop writes once a resolvable row has been met. *)
Lemma foldl_fix_step_columns_iff df unfixed_cdr3 rows c :
  c ∈ fixed_columns (foldl fix_step (df, unfixed_cdr3) rows).1
  ↔ c ∈ fixed_columns df
    ∨ (c ∈ ["cdr3"; "v.segm"; "j.segm"]
       ∧ ∃ r, r ∈ rows ∧ resolvable r.2.2 = true).
Proof.
  revert df unfixed_cdr3. induction rows as [|x rows IH]; intros df u.
  - cbn. split; [by left|]. by intros [?|(_ & ? & []%elem_of_nil & _)].
  - cbn [foldl]. destruct x as [index [row f]].
    destruct (fix_step (df, u) (index, (row, f))) as [df' u'] eqn:Hstep.
    rewrite IH. revert Hstep. unfold fix_step.
    destruct (good f || v_canonical f && j_canonical f) eqn:Hres; cbn [negb].
    + intros [= <- <-]. split.
      * intros [Hc|(Hthree & r & ? & ?)].
        -- apply loc_set_columns in Hc as [Hc| ->].
           2: { right. split; [set_unfold; tauto|].
                exists (index, (row, f)). split; [by left|done]. }
           apply loc_set_columns in Hc as [Hc| ->].
           2: { right. split; [set_unfold; tauto|].
                exists (index, (row, f)). split; [by left|done]. }
           apply loc_set_columns in Hc as [Hc| ->]; [by left|].
           right. split; [set_unfold; tauto|].
           exists (index, (row, f)). split; [by left|done].
        -- right. split; [done|]. exists r. split; [by right|done].
      * intros [Hc|(Hthree & _)]; left.
        -- by do 3 apply loc_set_keeps_column.
        -- apply elem_of_cons in Hthree as [->|Hthree].
           { do 2 apply loc_set_keeps_column. apply loc_set_has_column. }
           apply elem_of_cons in Hthree as [->|Hthree].
           { apply loc_set_keeps_column, loc_set_has_column. }
           apply list_elem_of_singleton in Hthree as ->.
           apply loc_set_has_column.
    + intros [= <- <-]. split.
      * intros [?|(? & r & ? & ?)]; [by left|].
        right. split; [done|]. exists r. split; [by right|done].
      * intros [?|(? & r & [->|?]%elem_of_cons & Hr)]; [by left| |].
        -- unfold resolvable in Hr. cbn in Hr. congruence.
        -- right. split; [done|]. by exists r.
Qed.

(** A run of the last stage that ends well wrote the final file from the
    frame the loop left. *)
Lemma apply_fixes_Ok fixed files :
  (apply_fixes fixed files).2 = Ok () ↔
    unfixed_of (fixed_rows fixed) = []
    ∧ required_columns ⊆ fixed_columns (fix_loop fixed).1
    ∧ apply_fixes fixed files
      = (<[final_file :=
             (fixed_index_name fixed :: required_columns)
             :: ((λ r, r.1 :: (write_cell "NA" ∘ get r.2.1 <$> required_columns))
                   <$> fixed_rows (fix_loop fixed).1)]> files,
         Ok ()).
Proof.
  split; [|by intros (_ & _ & ->)].
  unfold apply_fixes.
  pose proof (fix_loop_unfixed fixed) as Hunfixed.
  destruct (foldl_fix_step fixed [] (fixed_rows fixed)) as (_ & _ & Hname & _).
  fold (fix_loop fixed) in Hname.
  destruct (fix_loop fixed) as [df unfixed_cdr3]. cbn [fst snd] in *.
  rewrite <-Hunfixed. destruct unfixed_cdr3; [|done].
  destruct (select_cases (frame_of df) required_columns) as [[out Hout]|[c ->]];
    [|done].
  assert (required_columns ⊆ fixed_columns df) as Hsub
    by (apply (select_Ok_iff (frame_of df)); eauto).
  destruct (select_to_csv "NA" (frame_of df) required_columns Hsub)
    as (out' & Hout' & Hcsv).
  rewrite Hout' in Hout |- *. intros _. split_and!; [done..|].
  rewrite Hcsv. cbn. rewrite Hname. do 3 f_equal.
  rewrite <-list_fmap_compose. by apply list_fmap_ext.
Qed.

Lemma build_db_Ok fixer chunks files :
  (build_db fixer chunks files).2 = Ok () ↔
    ∃ df fixed,
      validate chunks = Ok df ∧ fixer (raw_export df) = Some fixed
      ∧ (apply_fixes fixed (<[raw_file := raw_export df]> files)).2 = Ok ()
      ∧ build_db fixer chunks files
        = apply_fixes fixed (<[raw_file := raw_export df]> files).
Proof.
  unfold build_db. split.
  - destruct (validate chunks) as [df|d|e] eqn:Hdf; [|done..].
    destruct (validate_raw_export chunks df Hdf) as (raw & Hraw & Hcsv).
    unfold reconcile. rewrite Hraw, Hcsv.
    destruct (fixer (raw_export df)) as [fixed|] eqn:Hfixed; [|done].
    intros Hok. by exists df, fixed.
  - intros (df & fixed & Hdf & Hfixed & Hok & _). rewrite Hdf.
    destruct (validate_raw_export chunks df Hdf) as (raw & Hraw & Hcsv).
    unfold reconcile. by rewrite Hraw, Hcsv, Hfixed.
Qed.

(** X19: a run ends well exactly when the checks before the fix pass, the
    fixer process succeeds, every row of the table it returns is resolvable,
    and every required column is in that table, or is one of cdr3, v.segm
    and j.segm and the table has a row (the loop's assignments then add the
    column). *)
Theorem run_succeeds_iff fixer chunks files :
  (build_db fixer chunks files).2 = Ok () ↔
    ∃ df fixed,
      validate chunks = Ok df
      ∧ fixer (raw_export df) = Some fixed
      ∧ Forall (λ r, resolvable r.2.2 = true) (fixed_rows fixed)
      ∧ ∀ c, c ∈ required_columns →
             c ∈ fixed_columns fixed
             ∨ (c ∈ ["cdr3"; "v.segm"; "j.segm"] ∧ fixed_rows fixed ≠ []).
Proof.
  rewrite build_db_Ok. split.
  - intros (df & fixed & Hdf & Hfixed & (Hnil & Hsub & _)%apply_fixes_Ok & _).
    exists df, fixed. split_and!; [done..| |].
    + apply Forall_forall. by apply unfixed_of_nil.
    + intros c [?|(? & r & Hr & _)]%Hsub%foldl_fix_step_columns_iff; [by left|].
      right. split; [done|]. intros Hrows. rewrite Hrows in Hr.
      by apply elem_of_nil in Hr.
  - intros (df & fixed & Hdf & Hfixed & Hall & Hcols).
    rewrite Forall_forall in Hall.
    assert (unfixed_of (fixed_rows fixed) = []) as Hnil by (by apply unfixed_of_nil).
    assert (required_columns ⊆ fixed_columns (fix_loop fixed).1) as Hsub.
    { intros c [?|[Hthree Hrows]]%Hcols; apply foldl_fix_step_columns_iff;
        [by left|right]. split; [done|].
      destruct (fixed_rows fixed) as [|r rows] eqn:E; [done|].
      exists r. split; [by left|]. apply Hall. by left. }
    assert ((apply_fixes fixed (<[raw_file := raw_export df]> files)).2 = Ok ())
      as Hok.
    { unfold apply_fixes. pose proof (fix_loop_unfixed fixed) as Hunfixed.
      destruct (fix_loop fixed) as [df' unfixed_cdr3]. cbn [fst snd] in *.
      rewrite Hunfixed, Hnil.
      destruct (select_to_csv "NA" (frame_of df') required_columns Hsub)
        as (out & -> & _). done. }
    exists df, fixed. split_and!; [done..|].
    unfold build_db, reconcile. rewrite Hdf.
    destruct (validate_raw_export chunks df Hdf) as (raw & -> & ->).
    by rewrite Hfixed.
Qed.

Lemma fix_loop_keeps_ids fixed :
  (fixed_rows (fix_loop fixed).1).*1 = (fixed_rows fixed).*1
  ∧ length (fixed_rows (fix_loop fixed).1) = length (fixed_rows fixed).
Proof.
  unfold fix_loop.
  destruct (foldl_fix_step fixed [] (fixed_rows fixed)) as (-> & _).
  split; [|by rewrite length_fmap].
  rewrite <-list_fmap_compose. apply list_fmap_ext. intros _ r _. cbn.
  by destruct (foldl_fix_row_index (fixed_rows fixed) r) as [-> _].
Qed.

(** X20: the final file of a run that ends well follows the table the fixer
    returned, not the chunks: its header is the name of that table's index
    column and the required columns, and it has one line per row of that
    table, in its order, starting with the row's record id and holding one
    cell per required column. *)
Theorem final_file_follows_fixer fixer chunks files :
  (build_db fixer chunks files).2 = Ok () →
  ∃ df fixed lines,
    validate chunks = Ok df
    ∧ fixer (raw_export df) = Some fixed
    ∧ (build_db fixer chunks files).1 !! final_file
      = Some ((fixed_index_name fixed :: required_columns) :: lines)
    ∧ head <$> lines = Some <$> (fixed_rows fixed).*1
    ∧ Forall (λ line, length line = S (length required_columns)) lines.
Proof.
  intros (df & fixed & Hdf & Hfixed & (_ & _ & Hrun)%apply_fixes_Ok & Hbuild)%build_db_Ok.
  exists df, fixed. eexists. split_and!; [done..| | |].
  - rewrite Hbuild, Hrun. cbn. apply lookup_insert_eq.
  - rewrite <-list_fmap_compose.
    destruct (fix_loop_keeps_ids fixed) as [Hids _].
    rewrite <-Hids, <-!list_fmap_compose. by apply list_fmap_ext.
  - apply Forall_fmap, Forall_forall. intros r _. cbn.
    by rewrite length_fmap.
Qed.

Lemma final_file_follows_fixer_witness :
  ∃ df fixed lines,
    validate [chunk_a; chunk_pair] = Ok df
    ∧ first_line_fixer (sample_fix "CASSLF" true true true) (raw_export df)
      = Some fixed
    ∧ (build_db (first_line_fixer (sample_fix "CASSLF" true true true))
         [chunk_a; chunk_pair] ∅).1 !! final_file
      = Some ((fixed_index_name fixed :: required_columns) :: lines)
    ∧ head <$> lines = Some <$> (fixed_rows fixed).*1
    ∧ Forall (λ line, length line = S (length required_columns)) lines.
Proof.
  apply final_file_follows_fixer. vm_compute. reflexivity.
Defined.

(** A fixer that returns one row of three goes unnoticed: the run ends well
    and the final file has that one line. *)
Lemma final_file_can_lose_rows :
  length (tail (raw_export (table [chunk_a; chunk_pair]))) = 3
  ∧ build_db (first_line_fixer (sample_fix "CASSLF" true true true))
      [chunk_a; chunk_pair] ∅
    = (<[final_file :=
           [index_column :: required_columns;
            ["VDJDBR00000001"; "VDJDBC00000000"; "CASSLF"; "TRBV1*01"; "TRBJ1*01";
             "TRB"; "HomoSapiens"; "HLA-A*02"; "B2M"; "MHCI"; "NA"; "gag";
             "HIV-1"; "tetramer-sort"; "PMID:1"; "1"]]]>
         (<[raw_file := raw_export (table [chunk_a; chunk_pair])]> ∅),
       Ok ()).
Proof. split; vm_compute; reflexivity. Qed.
